(** * Pseudo-random number engines of pg's <random> (src/stl/random.h)

    A shallow embedding of the four engines of [src/stl/random.h]
    (linear_congruential_engine, xorshift128_engine,
    subtract_with_carry_engine and the discard_block_engine adaptor)
    together with the properties of them that the specification states.

    Unsigned C++ integers are modelled as [Z] with the wrap-around of every
    operation written out; [std::array] buffers are lists read and written
    by index; template parameters are records that index the type of the
    engine state, as they are part of the type identity in the source. *)

From Stdlib Require String.
From Stdlib Require Import ZArith Znumtheory Bool Lia List.
From stdpp Require Import base option list.
Import ListNotations.

Local Open Scope Z_scope.

(** ** Machine integers *)

(** The widths of the integer types that the header takes from <stdint.h>
    and <stddef.h>; those declarations are not part of the sources, so the
    widths are parameters of the model. *)
Record platform := Platform {
  size_bits   : Z;   (* std::size_t *)
  fast32_bits : Z    (* uint_fast32_t *)
}.

(** Arduino AVR boards (avr-libc): 16-bit size_t, 32-bit uint_fast32_t. *)
Definition avr : platform := Platform 16 32.
(** 32-bit ARM boards (newlib): 32-bit size_t, 32-bit uint_fast32_t. *)
Definition arm32 : platform := Platform 32 32.
(** A 64-bit hosted platform (glibc): both are 64 bits wide. *)
Definition lp64 : platform := Platform 64 64.

(** Conversion to an unsigned type of [bits] bits. *)
Definition wrap (bits x : Z) : Z := x mod 2 ^ bits.

(** [(make_signed<T>::type)(x) < 0] for an unsigned [x] of [bits] bits. *)
Definition signed_neg (bits x : Z) : bool := 2 ^ (bits - 1) <=? x.

(** numeric_limits<T>::min() and ::max() of an unsigned type. *)
Definition numeric_min (bits : Z) : Z := 0.
Definition numeric_max (bits : Z) : Z := 2 ^ bits - 1.

(** ** std::array access *)

(** [a[i]] read and written without a bounds check, as [std::array] does;
    the lemmas below show where the index is inside the buffer. *)
Definition aget (l : list Z) (i : Z) : Z := default 0 (l !! Z.to_nat i).
Definition aset (l : list Z) (i v : Z) : list Z := <[Z.to_nat i := v]> l.

(** A write whose index is not reduced by the source: outside the buffer
    the behaviour is undefined, which is [None] here. *)
Definition aset_checked (l : list Z) (i v : Z) : option (list Z) :=
  if (0 <=? i) && (i <? Z.of_nat (length l)) then Some (aset l i v) else None.

(** ** The engine contract *)

(** What every engine class of the header offers: the bounds, the
    constructors, seeding, advancement and comparison.  Seeding is partial
    because one engine writes through an index it does not reduce. *)
Class Engine (E : Type) := {
  eng_min      : Z;
  eng_max      : Z;
  eng_default  : E;                  (* Engine() *)
  eng_ctor     : Z -> E;             (* Engine(value) *)
  eng_seed0    : E -> option E;      (* seed() *)
  eng_seed     : Z -> E -> option E; (* seed(value) *)
  eng_next     : E -> Z * E;         (* operator()() *)
  eng_eqb      : E -> E -> bool      (* operator== *)
}.
Arguments eng_min E {_}.
Arguments eng_max E {_}.
Arguments eng_default E {_}.

(** [discard(z)]: [while (z--) (void)operator()();], the same body in all
    four engines. *)
Fixpoint eng_discard {E} `{Engine E} (z : nat) (e : E) : E :=
  match z with
  | O => e
  | S z' => eng_discard z' (snd (eng_next e))
  end.

(** Calling the advancement operation [k] times and keeping only the last
    result ([last] is what one holds before the first call). *)
Fixpoint next_times {E} `{Engine E} (k : nat) (e : E) (last : Z) : Z * E :=
  match k with
  | O => (last, e)
  | S k' => let '(x, e') := eng_next e in next_times k' e' x
  end.

(** The [k]-th value (from 0) of the stream an engine produces from [e]. *)
Definition output_at {E} `{Engine E} (e : E) (k : nat) : Z :=
  fst (eng_next (eng_discard k e)).

(** The first [k] values produced from [e], with the state they leave. *)
Fixpoint outputs {E} `{Engine E} (k : nat) (e : E) : list Z * E :=
  match k with
  | O => ([], e)
  | S k' => let '(x, e') := eng_next e in
            let '(xs, e'') := outputs k' e' in (x :: xs, e'')
  end.

(** ** linear_congruential_engine *)

Module LCG.

(** Template parameters <UIntType, a, c, m>; [bits] is the width of
    UIntType. *)
Record params := Params { bits : Z; a : Z; c : Z; m : Z }.

(** The static_assert of the class. *)
Definition valid (p : params) : Prop :=
  0 < m p /\ 0 < a p /\ a p < m p /\ 0 <= c p /\ c p < m p /\
  m p < 2 ^ bits p.

(** The object: its only member is [lcg_]. *)
Record engine (p : params) := Engine_ { lcg_ : Z }.
Arguments Engine_ {p} _.
Arguments lcg_ {p} _.

Section WithParams.
Context {p : params}.

Definition default_seed : Z := 1.
Definition min : Z := numeric_min (bits p).
Definition max : Z := m p - 1.

(** [_seed(value)]. *)
Definition _seed (value : Z) : Z :=
  if (value mod m p =? 0) && (c p mod m p =? 0)
  then default_seed
  else value mod m p.

(** [explicit linear_congruential_engine(result_type value)]. *)
Definition ctor (value : Z) : engine p := Engine_ (_seed value).

(** [seed(value)]. *)
Definition seed (value : Z) (e : engine p) : engine p :=
  Engine_ (_seed value).

(** [operator()()]: [return (lcg_ = (a * lcg_ + c) % m);] with the
    product and the sum computed in UIntType.  This is the arithmetic of a
    UIntType that is not narrower than int, as uint_fast32_t in the two
    named configurations; a narrower UIntType is promoted to int, where
    the product does not wrap at the width of UIntType, and is outside
    this model. *)
Definition next (e : engine p) : Z * engine p :=
  let x := wrap (bits p) (a p * lcg_ e + c p) mod m p in
  (x, Engine_ x).

Definition eqb (l r : engine p) : bool := lcg_ l =? lcg_ r.
Definition neqb (l r : engine p) : bool := negb (eqb l r).
End WithParams.

#[global] Instance lcg_engine (p : params) : Engine (engine p) := {|
  eng_min := min (p:=p);
  eng_max := max (p:=p);
  eng_default := ctor default_seed;
  eng_ctor := ctor;
  eng_seed0 := fun e => Some (seed default_seed e);
  eng_seed := fun v e => Some (seed v e);
  eng_next := next;
  eng_eqb := eqb
|}.

End LCG.

(** The two named configurations. *)
Definition minstd_rand0 (pf : platform) : LCG.params :=
  LCG.Params (fast32_bits pf) 16807 0 2147483647.
Definition minstd_rand (pf : platform) : LCG.params :=
  LCG.Params (fast32_bits pf) 48271 0 2147483647.

(** The recurrence as the specification writes it, over the integers. *)
Definition recurrence (a c m x : Z) : Z := (a * x + c) mod m.

(** ** xorshift128_engine *)

Module Xorshift.

(** Template parameter <UIntType> ([bits] wide) and the platform, whose
    size_t is the type of the index [n_]. *)
Record params := Params { pf : platform; bits : Z }.

(** The object: the buffer [buf_] and the index [n_]. *)
Record engine (p : params) := Engine_ { buf_ : list Z; n_ : Z }.
Arguments Engine_ {p} _ _.
Arguments buf_ {p} _.
Arguments n_ {p} _.

Section WithParams.
Context {p : params}.

Definition default_seed : Z := 1.
Definition state_size : Z := 4.
Definition min : Z := numeric_min (bits p).
Definition max : Z := numeric_max (bits p) - 1.

Definition Seeds : list Z :=
  map (wrap (bits p)) [88675123; 123456789; 362436069; 521288629].

(** [xorshift128_engine()]. *)
Definition ctor_default : engine p := Engine_ Seeds 0.

(** [xorshift128_engine(UIntType seed)]: [buf_[n_] = seed] at the
    fresh index 0. *)
Definition ctor (seed : Z) : engine p := Engine_ (aset Seeds 0 seed) 0.

(** [seed(value)]: [buf_[n_] = value;]; the index is used as it is. *)
Definition seed (value : Z) (e : engine p) : option (engine p) :=
  match aset_checked (buf_ e) (n_ e) value with
  | Some b => Some (Engine_ b (n_ e))
  | None => None
  end.

(** [operator()()]. *)
Definition next (e : engine p) : Z * engine p :=
  let n1 := wrap (size_bits (pf p)) (n_ e + 1) in
  let x := aget (buf_ e) (n1 mod state_size) in
  let w := aget (buf_ e) (wrap (size_bits (pf p)) (n1 - 1) mod state_size) in
  let t := Z.lxor x (wrap (bits p) (Z.shiftl x 11)) in
  let v := Z.lxor (Z.lxor w (Z.shiftr w 19)) (Z.lxor t (Z.shiftr t 8)) in
  (v, Engine_ (aset (buf_ e) (n1 mod state_size) v) n1).

(** [operator==] compares the buffers only. *)
Definition eqb (l r : engine p) : bool :=
  bool_decide (buf_ l = buf_ r).
Definition neqb (l r : engine p) : bool := negb (eqb l r).
End WithParams.

#[global] Instance xorshift_engine (p : params) : Engine (engine p) := {|
  eng_min := min (p:=p);
  eng_max := max (p:=p);
  eng_default := ctor_default;
  eng_ctor := ctor;
  eng_seed0 := seed default_seed;
  eng_seed := seed;
  eng_next := next;
  eng_eqb := eqb
|}.

End Xorshift.

(** ** subtract_with_carry_engine *)

Module SWC.

(** Template parameters <UIntType, w, s, r> ([bits] is the width of
    UIntType) and the platform: size_t is the type of the position [i_],
    and uint_fast32_t is the type of the minstd_rand that seeds. *)
Record params := Params { pf : platform; bits : Z; w : Z; s : Z; r : Z }.

(** The static_assert of the class, and a long lag that the shift which
    defines [M] and size_t can hold. *)
Definition valid (p : params) : Prop :=
  0 < w p /\ 0 < s p /\ s p < r p /\
  r p < bits p /\ r p < 2 ^ size_bits (pf p).

(** The object: the buffers [X_] and [cy_] and the position [i_]. *)
Record engine (p : params) :=
  Engine_ { X_ : list Z; cy_ : list Z; i_ : Z }.
Arguments Engine_ {p} _ _ _.
Arguments X_ {p} _.
Arguments cy_ {p} _.
Arguments i_ {p} _.

Section WithParams.
Context {p : params}.

Let sz := size_bits (pf p).

Definition default_seed : Z := 19780503.

(** [static constexpr UIntType M = ((UIntType)1 << r);] *)
Definition M : Z := wrap (bits p) (Z.shiftl 1 (r p)).

Definition min : Z := numeric_min (bits p).
Definition max : Z := wrap (bits p) (M - 1).

(** [sN(i)]: the index differences are computed in size_t, the
    difference of the entries in UIntType. *)
Definition sN (X cy : list Z) (i : Z) : Z :=
  wrap (bits p)
    (aget X (wrap sz (i - s p) mod r p)
     - aget X (wrap sz (i - r p) mod r p)
     - aget cy (wrap sz (i - 1) mod r p)).

Definition carry_of (x : Z) : Z := if signed_neg (bits p) x then 1 else 0.

(** The loop of [seed(value)], [k] iterations from index [i]. *)
Fixpoint seed_loop (k : nat) (i : Z) (lcg : LCG.engine (minstd_rand (pf p)))
    (X cy : list Z) : list Z * list Z :=
  match k with
  | O => (X, cy)
  | S k' =>
      let '(x, lcg') := LCG.next lcg in
      let X' := aset X i (wrap (bits p) x) in
      let cy' := aset cy i (carry_of (sN X' cy i)) in
      seed_loop k' (i + 1) lcg' X' cy'
  end.

(** [seed(value)]; [i_] is not assigned.  [minstd_rand lcg(value)] is the
    constructor from a value where UIntType is the type uint_fast32_t, as
    in ranlux24_base, and in ranlux48_base where uint_fast64_t is that
    same type; for another UIntType the call selects the constructor from
    a seed sequence, which the header declares and does not define, and
    there is no program to model. *)
Definition seed (value : Z) (e : engine p) : engine p :=
  let lcg := LCG.ctor (wrap (fast32_bits (pf p)) value) in
  let '(X, cy) := seed_loop (Z.to_nat (r p)) 0 lcg (X_ e) (cy_ e) in
  Engine_ X cy (i_ e).

(** [explicit subtract_with_carry_engine(result_type value)]:
    [X_(), cy_(), i_()] and then [seed(value)]. *)
Definition zeros : list Z := replicate (Z.to_nat (r p)) 0.
Definition ctor (value : Z) : engine p :=
  seed value (Engine_ zeros zeros 0).

(** [operator()()]. *)
Definition next (e : engine p) : Z * engine p :=
  let x := sN (X_ e) (cy_ e) (i_ e) in
  let cy' := aset (cy_ e) (i_ e mod r p) (carry_of x) in
  let X' := aset (X_ e) (i_ e mod r p) (x mod M) in
  (x mod M, Engine_ X' cy' (wrap sz (i_ e + 1))).

(** [operator==] compares [X_] and [cy_]. *)
Definition eqb (l r : engine p) : bool :=
  bool_decide (X_ l = X_ r) && bool_decide (cy_ l = cy_ r).
Definition neqb (l r : engine p) : bool := negb (eqb l r).
End WithParams.

#[global] Instance swc_engine (p : params) : Engine (engine p) := {|
  eng_min := min (p:=p);
  eng_max := max (p:=p);
  eng_default := ctor default_seed;
  eng_ctor := ctor;
  eng_seed0 := fun e => Some (seed default_seed e);
  eng_seed := fun v e => Some (seed v e);
  eng_next := next;
  eng_eqb := eqb
|}.

End SWC.

(** The two named base configurations; uint_fast64_t is 64 bits wide.
    ranlux48_base can be seeded, and so constructed, where uint_fast32_t
    is the same type as uint_fast64_t, as on [lp64]. *)
Definition ranlux24_base (pf : platform) : SWC.params :=
  SWC.Params pf (fast32_bits pf) 24 10 24.
Definition ranlux48_base (pf : platform) : SWC.params :=
  SWC.Params pf 64 48 5 12.

(** ** discard_block_engine *)

Module DBE.

(** Template parameters <Engine, P, R>; the base engine is the type
    argument [E], and size_t is the type of the counter [n_]. *)
Record params := Params { pf : platform; P : Z; R : Z }.

(** The object: the base engine [engine_] and the counter [n_]. *)
Record engine (E : Type) (p : params) := Engine_ { engine_ : E; n_ : Z }.
Arguments Engine_ {E p} _ _.
Arguments engine_ {E p} _.
Arguments n_ {E p} _.

Section WithBase.
Context {E : Type} `{Engine E} {p : params}.

Let sz := size_bits (pf p).

Definition block_size : Z := P p.
Definition used_block : Z := R p.
Definition min : Z := eng_min E.
Definition max : Z := eng_max E.

(** [discard_block_engine()], [discard_block_engine(result_type seed)]
    and [discard_block_engine(const Engine&)]. *)
Definition ctor_default : engine E p := Engine_ (eng_default E) 0.
Definition ctor (seed : Z) : engine E p := Engine_ (eng_ctor seed) 0.
Definition ctor_base (e : E) : engine E p := Engine_ e 0.

Definition base (d : engine E p) : E := engine_ d.

(** [seed()] and [seed(value)]: [engine_.seed(...)] and nothing else. *)
Definition seed0 (d : engine E p) : option (engine E p) :=
  match eng_seed0 (engine_ d) with
  | Some e => Some (Engine_ e (n_ d))
  | None => None
  end.
Definition seed (value : Z) (d : engine E p) : option (engine E p) :=
  match eng_seed value (engine_ d) with
  | Some e => Some (Engine_ e (n_ d))
  | None => None
  end.

(** [operator()()]. *)
Definition next (d : engine E p) : Z * engine E p :=
  let d1 : engine E p :=
    if used_block <=? n_ d
    then Engine_
           (eng_discard (Z.to_nat (wrap sz (block_size - used_block)))
                        (engine_ d)) 0
    else d in
  let n1 := wrap sz (n_ d1 + 1) in
  let '(x, e') := eng_next (engine_ d1) in
  (x, Engine_ e' n1).

(** [operator==] and [operator!=]. *)
Definition eqb (l r : engine E p) : bool := eng_eqb (base l) (base r).
Definition neqb (l r : engine E p) : bool := negb (eqb l r).
End WithBase.

#[global] Instance dbe_engine (E : Type) `{Engine E} (p : params) :
  Engine (engine E p) := {|
  eng_min := min;
  eng_max := max;
  eng_default := ctor_default;
  eng_ctor := ctor;
  eng_seed0 := seed0;
  eng_seed := seed;
  eng_next := next;
  eng_eqb := eqb
|}.

End DBE.

(** The two named adaptors. *)
Definition ranlux24_params (pf : platform) : DBE.params := DBE.Params pf 223 23.
Definition ranlux48_params (pf : platform) : DBE.params := DBE.Params pf 389 11.
Definition ranlux48 (pf : platform) : Type :=
  DBE.engine (SWC.engine (ranlux48_base pf)) (ranlux48_params pf).

(** The number (from 0) of the base engine's value that call number [k]
    of a fresh adaptor with block size [Pn] and used count [Rn] returns. *)
Definition surfaced_index (Pn Rn k : nat) : nat :=
  (k / Rn * Pn + k mod Rn)%nat.

(** * Chronological event sequencer (src/src/components/Sequencer.h) *)

(** The timer of a [Sequencer<T>] is its template argument; the default
    argument [Timer<std::chrono::milliseconds>] is declared in
    utilities/Timer.h, which is not part of the sources.  The member
    functions the sequencer calls are the fields; durations are counts of
    milliseconds. *)
Class Timer (T : Type) := {
  t_default      : T;            (* timer_type() *)
  t_start        : T -> T;       (* start() *)
  t_stop         : T -> T;       (* stop() *)
  t_reset        : T -> T;       (* reset() *)
  t_resume       : T -> T;       (* resume() *)
  t_set_interval : Z -> T -> T;  (* interval(duration) *)
  t_interval     : T -> Z;       (* interval().count() *)
  t_active       : T -> bool;    (* active() *)
  t_expired      : T -> bool;    (* expired() *)
  t_elapsed      : T -> Z        (* elapsed() *)
}.

Module Sequencer.

(** [Event::State] and [Status]. *)
Inductive State := Begin | End.
Inductive Status := Idle | Active | Done.

Section WithTimer.
Context {T : Type} `{Timer T} {Cmd Cb : Type}.

(** [struct Event]; a null [command_] is [None]. *)
Record Event := Event_ {
  name_     : String.string;
  duration_ : Z;
  command_  : option Cmd
}.

(** What the sequencer does to its surroundings: [command_->execute()]
    and a call of the client callback. *)
Inductive action :=
| Execute (c : Cmd)
| Notify (cb : Cb) (ev : Event) (st : State).

(** The object. [events_] are the events the array of pointers refers
    to, [current_] is the iterator as a distance from [std::begin]; a null
    [callback_] is [None]. *)
Record sequencer := Sequencer_ {
  events_      : list Event;
  current_     : Z;
  callback_    : option Cb;
  wrap_        : bool;
  done_        : bool;
  exec_        : bool;
  event_timer_ : T
}.

Definition with_current (c : Z) (s : sequencer) : sequencer :=
  Sequencer_ (events_ s) c (callback_ s) (wrap_ s) (done_ s) (exec_ s)
             (event_timer_ s).
Definition with_callback (cb : option Cb) (s : sequencer) : sequencer :=
  Sequencer_ (events_ s) (current_ s) cb (wrap_ s) (done_ s) (exec_ s)
             (event_timer_ s).
Definition with_wrap (b : bool) (s : sequencer) : sequencer :=
  Sequencer_ (events_ s) (current_ s) (callback_ s) b (done_ s) (exec_ s)
             (event_timer_ s).
Definition with_done (b : bool) (s : sequencer) : sequencer :=
  Sequencer_ (events_ s) (current_ s) (callback_ s) (wrap_ s) b (exec_ s)
             (event_timer_ s).
Definition with_exec (b : bool) (s : sequencer) : sequencer :=
  Sequencer_ (events_ s) (current_ s) (callback_ s) (wrap_ s) (done_ s) b
             (event_timer_ s).
Definition with_timer (t : T) (s : sequencer) : sequencer :=
  Sequencer_ (events_ s) (current_ s) (callback_ s) (wrap_ s) (done_ s)
             (exec_ s) t.

(** A member function: from the object to its result, the object it
    leaves and the actions it performed in order, or [None] where it
    dereferences an iterator outside the sequence. *)
Definition M (A : Type) : Type :=
  sequencer -> option (A * sequencer * list action).

Definition ret {A : Type} (a : A) : M A := fun s => Some (a, s, []).
Definition bind {A B : Type} (m : M A) (f : A -> M B) : M B :=
  fun s =>
    match m s with
    | None => None
    | Some (a, s1, t1) =>
        match f a s1 with
        | None => None
        | Some (b, s2, t2) => Some (b, s2, t1 ++ t2)
        end
    end.
Definition get : M sequencer := fun s => Some (s, s, []).
Definition modify (f : sequencer -> sequencer) : M unit :=
  fun s => Some (tt, f s, []).
Definition emit (a : action) : M unit := fun s => Some (tt, s, [a]).

Local Notation "x <- m ;; k" := (bind m (fun x => k))
  (at level 100, m at next level, right associativity).
Local Notation "m ;; k" := (bind m (fun _ => k))
  (at level 100, right associativity).

(** [**current_]. *)
Definition deref : M Event :=
  fun s =>
    if 0 <=? current_ s
    then match events_ s !! Z.to_nat (current_ s) with
         | Some ev => Some (ev, s, [])
         | None => None
         end
    else None.

Definition on_timer (f : T -> T) : M unit :=
  modify (fun s => with_timer (f (event_timer_ s)) s).

Definition size (s : sequencer) : Z := Z.of_nat (length (events_ s)).

(** The constructors from a sequence of events. *)
Definition ctor (events : list Event) (cb : option Cb) (wrap : bool)
  : sequencer :=
  Sequencer_ events 0 cb wrap false false t_default.

(** [callback(Callback)], [wrap(bool)], [wrap()], [elapsed()]. *)
Definition set_callback (cb : option Cb) : M unit := modify (with_callback cb).
Definition set_wrap (value : bool) : M unit := modify (with_wrap value).
Definition wrap (s : sequencer) : bool := wrap_ s.
Definition elapsed (s : sequencer) : Z := t_elapsed (event_timer_ s).

(** [status()]. *)
Definition status (s : sequencer) : Status :=
  if t_active (event_timer_ s) then Active
  else if done_ s then Done else Idle.

Definition is_active (s : sequencer) : bool :=
  match status s with Active => true | _ => false end.
Definition is_idle (s : sequencer) : bool :=
  match status s with Idle => true | _ => false end.

(** [event()]. *)
Definition event : M Event := deref.

(** [index()]. *)
Definition index (s : sequencer) : Z := (current_ s + 1) mod 256.

(** [callback(const_iterator, State)], called with [current_]. *)
Definition callback (st : State) : M unit :=
  s <- get ;;
  match callback_ s with
  | Some cb => ev <- deref ;; emit (Notify cb ev st)
  | None => ret tt
  end.

(** [begin()]. *)
Definition begin : M unit :=
  ev <- deref ;;
  on_timer (t_set_interval (duration_ ev)) ;;
  match command_ ev with
  | Some c => emit (Execute c)
  | None => ret tt
  end ;;
  callback Begin.

(** [end()]. *)
Definition end_ : M unit := callback End.

(** [rewind()]. *)
Definition rewind : M unit :=
  modify (with_current 0) ;; modify (with_done false).

(** [stop()]. *)
Definition stop : M unit := on_timer t_stop.

(** [advance()]. *)
Definition advance : M unit :=
  modify (fun s => with_current (current_ s + 1) s) ;;
  s <- get ;;
  if current_ s =? size s
  then if wrap_ s
       then modify (with_current 0)
       else stop ;;
            modify (fun s => with_current (current_ s - 1) s) ;;
            modify (with_done true)
  else ret tt.

(** [start()]. *)
Definition start : M unit :=
  s <- get ;;
  if is_active s then ret tt
  else rewind ;; begin ;; on_timer t_start.

(** [reset()]. *)
Definition reset : M unit :=
  rewind ;;
  s <- get ;;
  if is_active s
  then on_timer t_reset ;; begin
  else on_timer (t_set_interval 0).

(** [resume()]. *)
Definition resume : M unit :=
  s <- get ;;
  if is_idle s
  then if t_interval (event_timer_ s) =? 0
       then start
       else (if exec_ s
             then begin ;; modify (with_exec false)
             else ret tt) ;;
            on_timer t_resume
  else ret tt.

(** [next()]. *)
Definition next : M unit :=
  modify (fun s => with_current (current_ s + 1) s) ;;
  s <- get ;;
  (if current_ s =? size s then modify (with_current 0) else ret tt) ;;
  modify (with_exec true) ;;
  ev <- deref ;;
  on_timer (t_set_interval (duration_ ev)) ;;
  on_timer t_reset.

(** [prev()]. *)
Definition prev : M unit :=
  s <- get ;;
  (if current_ s =? 0 then modify (with_current (size s)) else ret tt) ;;
  modify (fun s => with_current (current_ s - 1) s) ;;
  modify (with_exec true) ;;
  ev <- deref ;;
  on_timer (t_set_interval (duration_ ev)) ;;
  on_timer t_reset.

(** [tick()], which [clock()] calls. *)
Definition tick : M unit :=
  s <- get ;;
  if t_expired (event_timer_ s)
  then end_ ;;
       advance ;;
       s' <- get ;;
       if is_active s' then begin else ret tt
  else ret tt.
Definition clock : M unit := tick.

(** The sequencer has events and its iterator is on one of them. *)
Definition on_event (s : sequencer) : Prop :=
  0 <= current_ s < size s.

(** The actions of executing the command of [ev], if it has one, and of
    calling the callback [cb], if there is one, for [ev]. *)
Definition command_actions (ev : Event) : list action :=
  match command_ ev with Some c => [Execute c] | None => [] end.
Definition callback_actions (cb : option Cb) (ev : Event) (st : State)
  : list action :=
  match cb with Some f => [Notify f ev st] | None => [] end.

(** A member function that, called with the iterator on an event,
    returns without dereferencing outside the sequence, leaves the
    iterator on an event and does not change the sequence. *)
Definition keeps_on_event {A : Type} (m : M A) : Prop :=
  forall s, on_event s ->
    exists a s' tr, m s = Some (a, s', tr) /\ on_event s' /\
                    events_ s' = events_ s.

(** The position after [current_] and the one before it, cyclically. *)
Definition following (s : sequencer) : Z :=
  if current_ s + 1 =? size s then 0 else current_ s + 1.
Definition preceding (s : sequencer) : Z :=
  (if current_ s =? 0 then size s else current_ s) - 1.

End WithTimer.

Arguments Event : clear implicits.
Arguments action : clear implicits.
Arguments sequencer : clear implicits.

End Sequencer.

(** A timer to instantiate the sequencer with: it counts the
    milliseconds it is told have passed. *)
Record stopwatch := Stopwatch {
  sw_running  : bool;
  sw_interval : Z;
  sw_elapsed  : Z
}.

#[global] Instance stopwatch_timer : Timer stopwatch := {|
  t_default := Stopwatch false 0 0;
  t_start := fun t => Stopwatch true (sw_interval t) 0;
  t_stop := fun t => Stopwatch false (sw_interval t) (sw_elapsed t);
  t_reset := fun t => Stopwatch (sw_running t) (sw_interval t) 0;
  t_resume := fun t => Stopwatch true (sw_interval t) (sw_elapsed t);
  t_set_interval := fun d t => Stopwatch (sw_running t) d (sw_elapsed t);
  t_interval := sw_interval;
  t_active := sw_running;
  t_expired := fun t => sw_running t && (sw_interval t <=? sw_elapsed t);
  t_elapsed := sw_elapsed
|}.

(** A sequence of two events and a sequencer over it, with commands and
    callbacks named by numbers. *)
Module Sample.
Import String.
Definition first_event : Sequencer.Event nat :=
  Sequencer.Event_ "first"%string 10 (Some 1%nat).
Definition second_event : Sequencer.Event nat :=
  Sequencer.Event_ "second"%string 20 None.
Definition two_events : list (Sequencer.Event nat) :=
  [first_event; second_event].
Definition two_event_sequencer : Sequencer.sequencer stopwatch nat nat :=
  Sequencer.ctor two_events (Some 7%nat) false.
(** The same sequencer with its timer running and expired, on the first
    and on the last event, and a sequencer without events. *)
Definition expired_on_first : Sequencer.sequencer stopwatch nat nat :=
  Sequencer.with_timer (Stopwatch true 10 12) two_event_sequencer.
Definition expired_on_last : Sequencer.sequencer stopwatch nat nat :=
  Sequencer.with_timer (Stopwatch true 20 20)
    (Sequencer.with_current 1 two_event_sequencer).
Definition no_events : Sequencer.sequencer stopwatch nat nat :=
  Sequencer.ctor [] None false.
End Sample.

(** ** The states of the objects *)

(** The values of an unsigned type of [bits] bits. *)
Definition in_range (bits x : Z) : Prop := 0 <= x < 2 ^ bits.

Definition all_zero (l : list Z) : Prop := Forall (fun x => x = 0) l.

(** What the members of an xorshift128_engine can hold: four words of
    UIntType in [buf_] and a size_t in [n_]. *)
Definition xorshift_state {p : Xorshift.params} (e : Xorshift.engine p) : Prop :=
  length (Xorshift.buf_ e) = 4%nat /\
  Forall (in_range (Xorshift.bits p)) (Xorshift.buf_ e) /\
  in_range (size_bits (Xorshift.pf p)) (Xorshift.n_ e).

(** What the members of a subtract_with_carry_engine can hold: [r] words
    in each of [X_] and [cy_] and a size_t in [i_]. *)
Definition swc_state {p : SWC.params} (e : SWC.engine p) : Prop :=
  length (SWC.X_ e) = Z.to_nat (SWC.r p) /\
  length (SWC.cy_ e) = Z.to_nat (SWC.r p) /\
  in_range (size_bits (SWC.pf p)) (SWC.i_ e).

(** The value of [sN(i_)] at the advancement number [k] (from 0) of the
    stream from [e], before its reduction modulo [M]. *)
Definition swc_raw {p : SWC.params} (e : SWC.engine p) (k : nat) : Z :=
  let ek := eng_discard k e in
  SWC.sN (p:=p) (SWC.X_ ek) (SWC.cy_ ek) (SWC.i_ ek).

Definition is_bit (c : Z) : Prop := c = 0 \/ c = 1.

(** ** Concrete instantiations used below *)



(** xorshift128_engine<uint32_t> on an AVR board. *)
Definition xorshift32 : Xorshift.params := Xorshift.Params avr 32.

(** discard_block_engine<minstd_rand, 4, 2> on an AVR board. *)
Definition thinned_minstd : DBE.params := DBE.Params avr 4 2.

(** * Properties *)

(** ** Machine integers and buffers *)

Lemma wrap_small (bits x : Z) : 0 <= x < 2 ^ bits -> wrap bits x = x.
Proof. intros Hx. unfold wrap. apply Z.mod_small. exact Hx. Qed.

Lemma wrap_range (bits x : Z) : 0 <= bits -> 0 <= wrap bits x < 2 ^ bits.
Proof.
  intros Hb. unfold wrap. apply Z.mod_pos_bound.
  apply Z.pow_pos_nonneg; lia.
Qed.

Lemma pow2_le_mono (a b : Z) : 0 <= a <= b -> 2 ^ a <= 2 ^ b.
Proof. intros Hab. apply Z.pow_le_mono_r; lia. Qed.

Lemma aset_length (l : list Z) (i v : Z) : length (aset l i v) = length l.
Proof. unfold aset. apply length_insert. Qed.

(** The reads and writes whose index the source reduces stay inside the
    buffer: a [std::array] of [n] elements indexed by [i % n]. *)
Lemma reduced_index_in_bounds (l : list Z) (i n : Z) :
  0 < n -> Z.of_nat (length l) = n ->
  is_Some (l !! Z.to_nat (i mod n)) /\
  aset_checked l (i mod n) 0 = Some (aset l (i mod n) 0).
Proof.
  intros Hn Hlen. pose proof (Z.mod_pos_bound i n Hn) as Hi. split.
  - apply lookup_lt_is_Some. lia.
  - unfold aset_checked.
    destruct (Z.leb_spec 0 (i mod n)); [|lia].
    destruct (Z.ltb_spec (i mod n) (Z.of_nat (length l))); [|lia].
    reflexivity.
Qed.

(** ** The discard loop *)

Section Loop.
Context {E : Type} `{Engine E}.

Lemma eng_discard_add (a b : nat) (e : E) :
  eng_discard (a + b) e = eng_discard b (eng_discard a e).
Proof.
  revert e. induction a as [|a IH]; intros e; simpl; [reflexivity|].
  apply IH.
Qed.

Lemma eng_discard_succ (z : nat) (e : E) :
  eng_discard (S z) e = snd (eng_next (eng_discard z e)).
Proof.
  replace (S z) with (z + 1)%nat by lia.
  rewrite eng_discard_add. reflexivity.
Qed.

Lemma next_times_snd (k : nat) (e : E) (d : Z) :
  snd (next_times k e d) = eng_discard k e.
Proof.
  revert e d. induction k as [|k IH]; intros e d; simpl; [reflexivity|].
  destruct (eng_next e) as [x e'] eqn:Hn. simpl. apply IH.
Qed.

Lemma outputs_snd (k : nat) (e : E) :
  snd (outputs k e) = eng_discard k e.
Proof.
  revert e. induction k as [|k IH]; intros e; simpl; [reflexivity|].
  destruct (eng_next e) as [x e'] eqn:Hn.
  specialize (IH e'). destruct (outputs k e') as [xs e'']. simpl in *.
  exact IH.
Qed.
End Loop.

(** C8. In every engine (the statement is over the engine contract, of
    which linear_congruential_engine, xorshift128_engine,
    subtract_with_carry_engine and discard_block_engine over any base are
    instances) and for every count [z]: [discard(z)] followed by one
    advancement returns the same value and leaves the same state as
    [z + 1] advancements of which only the last result is kept. *)
Theorem discard_then_next {E : Type} `{Engine E} (z : nat) (e : E) (d : Z) :
  eng_next (eng_discard z e) = next_times (S z) e d.
Proof.
  revert e d. induction z as [|z IH]; intros e d.
  - simpl. destruct (eng_next e) as [x e']. reflexivity.
  - change (eng_discard (S z) e) with (eng_discard z (snd (eng_next e))).
    change (next_times (S (S z)) e d)
      with (let '(x, e') := eng_next e in next_times (S z) e' x).
    destruct (eng_next e) as [x e']. simpl snd. apply IH.
Qed.

(** ** linear_congruential_engine *)

(** C6. [seed(v)] leaves the state [v mod m], except that it leaves the
    default seed 1 when both [v mod m] and [c mod m] are 0; construction
    from an explicit seed value leaves the same state. *)
Theorem lcg_seed_state (p : LCG.params) (v : Z) (e : LCG.engine p) :
  let st := LCG.lcg_ (LCG.seed v e) in
  (v mod LCG.m p = 0 /\ LCG.c p mod LCG.m p = 0 -> st = 1) /\
  (~ (v mod LCG.m p = 0 /\ LCG.c p mod LCG.m p = 0) -> st = v mod LCG.m p) /\
  LCG.lcg_ (LCG.ctor (p:=p) v) = st /\
  eng_seed v e = Some (LCG.seed v e).
Proof.
  cbn zeta. repeat apply conj; try reflexivity;
    unfold LCG.seed, LCG._seed, LCG.default_seed; simpl;
    destruct (Z.eqb_spec (v mod LCG.m p) 0) as [Hv|Hv];
    destruct (Z.eqb_spec (LCG.c p mod LCG.m p) 0) as [Hc|Hc]; simpl.
  all: try (intros _; reflexivity).
  all: try (intros [Hv' Hc']; contradiction).
  intros Hn. exfalso. apply Hn. split; assumption.
Qed.

Lemma lcg_next_range (p : LCG.params) (e : LCG.engine p) :
  LCG.valid p -> LCG.min (p:=p) <= fst (LCG.next e) <= LCG.max (p:=p).
Proof.
  intros (Hm & _). unfold LCG.next, LCG.min, LCG.max, numeric_min. simpl.
  pose proof (Z.mod_pos_bound
                (wrap (LCG.bits p) (LCG.a p * LCG.lcg_ e + LCG.c p))
                (LCG.m p) Hm).
  lia.
Qed.

Lemma lcg_next_exact (p : LCG.params) (e : LCG.engine p) :
  0 <= LCG.a p * LCG.lcg_ e + LCG.c p < 2 ^ LCG.bits p ->
  fst (LCG.next e) = recurrence (LCG.a p) (LCG.c p) (LCG.m p) (LCG.lcg_ e).
Proof.
  intros Hr. unfold LCG.next, recurrence. simpl.
  rewrite wrap_small by exact Hr. reflexivity.
Qed.

Lemma minstd_next_exact (pf : platform) (x : Z) :
  44 <= fast32_bits pf -> 0 <= x <= 182605794 ->
  LCG.next (p:=minstd_rand pf) (LCG.Engine_ x)
  = (recurrence 48271 0 2147483647 x,
     LCG.Engine_ (recurrence 48271 0 2147483647 x)).
Proof.
  intros Hb Hx. unfold LCG.next, recurrence. simpl.
  rewrite wrap_small; [reflexivity|].
  assert (Hp : 17592186044416 <= 2 ^ fast32_bits pf)
    by (change 17592186044416 with (2 ^ 44); apply pow2_le_mono; lia).
  lia.
Qed.

(** C5, as the code has it. Where uint_fast32_t holds the products of the
    recurrence without wrap-around (44 bits or more), minstd_rand seeded
    with 1 produces 48271, 182605794, 1291394886 as its first three
    values, each the direct evaluation of x = (a*x + c) mod m on the one
    before. *)
Theorem minstd_rand_first_three (pf : platform) :
  44 <= fast32_bits pf ->
  fst (outputs 3 (LCG.ctor (p:=minstd_rand pf) 1))
  = [48271; 182605794; 1291394886] /\
  [48271; 182605794; 1291394886]
  = [recurrence 48271 0 2147483647 1;
     recurrence 48271 0 2147483647 48271;
     recurrence 48271 0 2147483647 182605794].
Proof.
  intros Hb. split; [|vm_compute; reflexivity].
  change (LCG.ctor (p:=minstd_rand pf) 1)
    with (LCG.Engine_ (p:=minstd_rand pf) 1).
  cbn [outputs eng_next LCG.lcg_engine].
  rewrite (minstd_next_exact pf 1) by lia.
  change (recurrence 48271 0 2147483647 1) with 48271.
  rewrite (minstd_next_exact pf 48271) by lia.
  change (recurrence 48271 0 2147483647 48271) with 182605794.
  rewrite (minstd_next_exact pf 182605794) by lia.
  change (recurrence 48271 0 2147483647 182605794) with 1291394886.
  reflexivity.
Qed.

Lemma minstd_rand_first_three_witness :
  fst (outputs 3 (LCG.ctor (p:=minstd_rand lp64) 1))
  = [48271; 182605794; 1291394886] /\
  [48271; 182605794; 1291394886]
  = [recurrence 48271 0 2147483647 1;
     recurrence 48271 0 2147483647 48271;
     recurrence 48271 0 2147483647 182605794].
Proof. apply (minstd_rand_first_three lp64). simpl. lia. Defined.

(** C5 as stated fails: with exact 64-bit arithmetic the third value of
    minstd_rand seeded with 1 is 1291394886, not 1335424460. *)
Lemma minstd_rand_third_not_1335424460 :
  fst (outputs 3 (LCG.ctor (p:=minstd_rand lp64) 1))
  <> [48271; 182605794; 1335424460].
Proof. vm_compute. discriminate. Qed.

(** With a 32-bit uint_fast32_t the product [a * lcg_] wraps before the
    reduction, and the third value is neither of the two. *)
Lemma minstd_rand_first_three_32bit :
  fst (outputs 3 (LCG.ctor (p:=minstd_rand avr) 1))
  = [48271; 182605794; 1291390782].
Proof. vm_compute. reflexivity. Qed.

(** ** discard_block_engine *)

Section Cadence.
Context {E : Type} `{Engine E} (p : DBE.params).
Hypothesis HR : 0 < DBE.R p.
Hypothesis HRP : DBE.R p <= DBE.P p.
Hypothesis HP : DBE.P p < 2 ^ size_bits (DBE.pf p).

Let Rn : nat := Z.to_nat (DBE.R p).
Let Pn : nat := Z.to_nat (DBE.P p).

(** Inside the used part of a block the adaptor hands on the next value
    of the base engine and counts it. *)
Lemma dbe_next_used (e : E) (n : Z) :
  0 <= n < DBE.R p ->
  DBE.next (p:=p) (DBE.Engine_ e n)
  = (fst (eng_next e), DBE.Engine_ (snd (eng_next e)) (n + 1)).
Proof.
  intros Hn. unfold DBE.next, DBE.used_block. simpl.
  destruct (Z.leb_spec (DBE.R p) n) as [Hle|_]; [lia|]. simpl.
  rewrite wrap_small by lia.
  destruct (eng_next e) as [x e']. reflexivity.
Qed.

(** With the used part exhausted it first advances the base engine
    [P - R] times, and starts to count again. *)
Lemma dbe_next_exhausted (e : E) (n : Z) :
  DBE.R p <= n ->
  DBE.next (p:=p) (DBE.Engine_ e n)
  = (fst (eng_next (eng_discard (Pn - Rn) e)),
     DBE.Engine_ (snd (eng_next (eng_discard (Pn - Rn) e))) 1).
Proof.
  intros Hn. unfold DBE.next, DBE.used_block, DBE.block_size. simpl.
  destruct (Z.leb_spec (DBE.R p) n) as [_|Hlt]; [|lia]. simpl.
  rewrite (wrap_small _ 1) by lia.
  rewrite (wrap_small _ (DBE.P p - DBE.R p)) by lia.
  replace (Z.to_nat (DBE.P p - DBE.R p)) with (Pn - Rn)%nat
    by (subst Rn Pn; lia).
  destruct (eng_next (eng_discard (Pn - Rn) e)) as [x e']. reflexivity.
Qed.

(** The state of a fresh adaptor over [e] after [q * R + t] calls,
    [1 <= t <= R]: the base engine has been advanced [q * P + t] times
    and the counter is [t]. *)
Lemma dbe_state_after (e : E) (q t : nat) :
  (1 <= t <= Rn)%nat ->
  eng_discard (q * Rn + t) (DBE.ctor_base (p:=p) e)
  = DBE.Engine_ (eng_discard (q * Pn + t) e) (Z.of_nat t).
Proof.
  assert (HRn : Z.of_nat Rn = DBE.R p) by (subst Rn; lia).
  assert (HPn : Z.of_nat Pn = DBE.P p) by (subst Pn; lia).
  revert t. induction q as [|q IHq].
  - induction t as [|t IHt]; intros Ht; [lia|].
    simpl Nat.mul. simpl Nat.add. rewrite !eng_discard_succ.
    destruct t as [|t].
    + simpl eng_discard. unfold DBE.ctor_base.
      change (@eng_next (DBE.engine E p) _) with (DBE.next (E:=E) (p:=p)).
      rewrite dbe_next_used by lia. reflexivity.
    + simpl Nat.mul in IHt. simpl Nat.add in IHt. rewrite IHt by lia.
      change (@eng_next (DBE.engine E p) _) with (DBE.next (E:=E) (p:=p)).
      rewrite dbe_next_used by lia. simpl snd. f_equal. lia.
  - induction t as [|t IHt]; intros Ht; [lia|].
    replace (S q * Rn + S t)%nat with (S (S q * Rn + t)) by lia.
    replace (S q * Pn + S t)%nat with (S (S q * Pn + t)) by lia.
    rewrite !eng_discard_succ.
    destruct t as [|t].
    + replace (S q * Rn + 0)%nat with (q * Rn + Rn)%nat by lia.
      rewrite IHq by lia.
      change (@eng_next (DBE.engine E p) _) with (DBE.next (E:=E) (p:=p)).
      rewrite dbe_next_exhausted by lia. simpl snd.
      rewrite <- eng_discard_add.
      replace (q * Pn + Rn + (Pn - Rn))%nat with (S q * Pn + 0)%nat by lia.
      reflexivity.
    + rewrite IHt by lia.
      change (@eng_next (DBE.engine E p) _) with (DBE.next (E:=E) (p:=p)).
      rewrite dbe_next_used by lia. simpl snd. f_equal. lia.
Qed.

(** The call number [q * R + t] (from 0, [t < R]) of a fresh adaptor
    returns the value number [q * P + t] of the base engine. *)
Lemma dbe_next_after (e : E) (q t : nat) :
  (t < Rn)%nat ->
  eng_next (eng_discard (q * Rn + t) (DBE.ctor_base (p:=p) e))
  = (output_at e (q * Pn + t),
     DBE.Engine_ (eng_discard (S (q * Pn + t)) e) (Z.of_nat t + 1)).
Proof.
  assert (HRn : Z.of_nat Rn = DBE.R p) by (subst Rn; lia).
  assert (HPn : Z.of_nat Pn = DBE.P p) by (subst Pn; lia).
  intros Ht. unfold output_at. rewrite eng_discard_succ.
  change (@eng_next (DBE.engine E p) _) with (DBE.next (E:=E) (p:=p)).
  destruct t as [|t].
  - destruct q as [|q].
    + simpl Nat.mul. simpl Nat.add. simpl eng_discard.
      unfold DBE.ctor_base. rewrite dbe_next_used by lia. reflexivity.
    + replace (S q * Rn + 0)%nat with (q * Rn + Rn)%nat by lia.
      rewrite dbe_state_after by lia.
      rewrite dbe_next_exhausted by lia.
      rewrite <- eng_discard_add.
      replace (q * Pn + Rn + (Pn - Rn))%nat with (S q * Pn + 0)%nat by lia.
      reflexivity.
  - rewrite dbe_state_after by lia.
    rewrite dbe_next_used by lia. reflexivity.
Qed.
End Cadence.

Lemma surfaced_index_mod (Pn Rn k : nat) :
  (0 < Rn <= Pn)%nat -> (surfaced_index Pn Rn k mod Pn = k mod Rn)%nat.
Proof.
  intros HRP. unfold surfaced_index.
  pose proof (Nat.mod_upper_bound k Rn ltac:(lia)) as Hlt.
  symmetry. apply (Nat.mod_unique _ Pn (k / Rn)); lia.
Qed.

Lemma surfaced_index_onto (Pn Rn j : nat) :
  (0 < Rn <= Pn)%nat -> (j mod Pn < Rn)%nat ->
  surfaced_index Pn Rn (j / Pn * Rn + j mod Pn) = j.
Proof.
  intros HRP Hj. unfold surfaced_index.
  assert (Hq : ((j / Pn * Rn + j mod Pn) / Rn = j / Pn)%nat)
    by (symmetry; apply (Nat.div_unique _ Rn _ (j mod Pn)); lia).
  assert (Hr : ((j / Pn * Rn + j mod Pn) mod Rn = j mod Pn)%nat)
    by (symmetry; apply (Nat.mod_unique _ Rn (j / Pn)); lia).
  rewrite Hq, Hr. pose proof (Nat.div_mod_eq j Pn). lia.
Qed.

(** C7. In a discard_block_engine with block size [P] and used count [R]
    ([0 < R <= P], [P] a size_t): an advancement with counter [n >= R]
    first advances the base engine [P - R] times and restarts the counter,
    any advancement then counts and returns the next value of the base
    engine.  So call number [k] (from 0) of a fresh adaptor returns value
    number [k / R * P + k mod R] of the base engine and leaves the base
    engine advanced past it; the values surfaced are exactly those whose
    number is less than [R] modulo [P], the other [P - R] of every block
    are passed over. *)
Theorem discard_block_cadence {E : Type} `{Engine E} (p : DBE.params)
    (e : E) (k : nat) :
  0 < DBE.R p -> DBE.R p <= DBE.P p -> DBE.P p < 2 ^ size_bits (DBE.pf p) ->
  let Rn := Z.to_nat (DBE.R p) in
  let Pn := Z.to_nat (DBE.P p) in
  (forall n, 0 <= n ->
     DBE.next (p:=p) (DBE.Engine_ e n)
     = if DBE.R p <=? n
       then (fst (eng_next (eng_discard (Pn - Rn) e)),
             DBE.Engine_ (snd (eng_next (eng_discard (Pn - Rn) e))) 1)
       else (fst (eng_next e), DBE.Engine_ (snd (eng_next e)) (n + 1))) /\
  eng_next (eng_discard k (DBE.ctor_base (p:=p) e))
  = (output_at e (surfaced_index Pn Rn k),
     DBE.Engine_ (eng_discard (S (surfaced_index Pn Rn k)) e)
                 (Z.of_nat (k mod Rn) + 1)) /\
  (forall j : nat,
     (exists k', surfaced_index Pn Rn k' = j) <-> (j mod Pn < Rn)%nat).
Proof.
  intros HR HRP HP Rn Pn.
  assert (HRPn : (0 < Rn <= Pn)%nat) by (subst Rn Pn; lia).
  split; [|split].
  - intros n Hn. destruct (Z.leb_spec (DBE.R p) n) as [Hle|Hlt].
    + apply dbe_next_exhausted; assumption.
    + apply dbe_next_used; lia.
  - pose proof (Nat.div_mod_eq k Rn) as Hk.
    pose proof (Nat.mod_upper_bound k Rn ltac:(lia)) as Hlt.
    replace k with (k / Rn * Rn + k mod Rn)%nat at 1 by lia.
    apply (dbe_next_after p HR HRP HP e (k / Rn) (k mod Rn) Hlt).
  - intros j. split.
    + intros [k' <-]. rewrite surfaced_index_mod by exact HRPn.
      apply Nat.mod_upper_bound. lia.
    + intros Hj. exists (j / Pn * Rn + j mod Pn)%nat.
      apply surfaced_index_onto; assumption.
Qed.

Lemma discard_block_cadence_witness :
  let e : SWC.engine (ranlux24_base avr) := SWC.ctor SWC.default_seed in
  (0 < DBE.R (ranlux24_params avr) /\
   DBE.R (ranlux24_params avr) <= DBE.P (ranlux24_params avr) /\
   DBE.P (ranlux24_params avr) < 2 ^ size_bits (DBE.pf (ranlux24_params avr)))
  /\
  eng_next (eng_discard 25 (DBE.ctor_base (p:=ranlux24_params avr) e))
  = (output_at e (surfaced_index 223 23 25),
     DBE.Engine_ (eng_discard (S (surfaced_index 223 23 25)) e)
                 (Z.of_nat (25 mod 23) + 1)).
Proof.
  intros e.
  assert (H1 : 0 < DBE.R (ranlux24_params avr)) by (simpl; lia).
  assert (H2 : DBE.R (ranlux24_params avr) <= DBE.P (ranlux24_params avr))
    by (simpl; lia).
  assert (H3 : DBE.P (ranlux24_params avr)
               < 2 ^ size_bits (DBE.pf (ranlux24_params avr)))
    by (vm_compute; reflexivity).
  split; [repeat split; assumption|].
  exact (proj1 (proj2
           (discard_block_cadence (ranlux24_params avr) e 25 H1 H2 H3))).
Defined.



(** C10. Both forms of [seed] of the adaptor seed the base engine and keep
    the use counter as it is.  An adaptor reseeded after one value of a
    block therefore compares equal to a fresh adaptor constructed from the
    same seed and still produces other values: here
    discard_block_engine<minstd_rand, 4, 2>, reseeded with 1 after one
    advancement, against a fresh one constructed from 1. *)
Theorem dbe_seed_keeps_counter :
  (forall (E : Type) (H : Engine E) (p : DBE.params) (d : DBE.engine E p)
          (v : Z),
     DBE.seed v d
     = option_map (fun e => DBE.Engine_ e (DBE.n_ d))
                  (eng_seed v (DBE.engine_ d)) /\
     DBE.seed0 d
     = option_map (fun e => DBE.Engine_ e (DBE.n_ d))
                  (eng_seed0 (DBE.engine_ d))) /\
  (let fresh : DBE.engine (LCG.engine (minstd_rand avr)) thinned_minstd :=
     DBE.ctor 1 in
   exists reseeded,
     DBE.seed 1 (snd (DBE.next (DBE.ctor 5))) = Some reseeded /\
     DBE.n_ reseeded = 1 /\ DBE.n_ fresh = 0 /\
     DBE.eqb reseeded fresh = true /\
     fst (outputs 4 reseeded) = [48271; 1716587427; 735130638; 205459859] /\
     fst (outputs 4 fresh) = [48271; 182605794; 735130638; 471227346]).
Proof.
  split.
  - intros E H p d v. unfold DBE.seed, DBE.seed0.
    destruct (eng_seed v (DBE.engine_ d)), (eng_seed0 (DBE.engine_ d));
      split; reflexivity.
  - exists (DBE.Engine_ (LCG.Engine_ 1) 1).
    repeat apply conj; vm_compute; reflexivity.
Qed.

Lemma dbe_next_range {E : Type} `{Engine E} (p : DBE.params)
    (d : DBE.engine E p) :
  (forall e : E, eng_min E <= fst (eng_next e) <= eng_max E) ->
  DBE.min (E:=E) <= fst (DBE.next d) <= DBE.max (E:=E).
Proof.
  intros Hbase. unfold DBE.next, DBE.min, DBE.max.
  destruct (DBE.used_block <=? DBE.n_ d); simpl.
  - specialize (Hbase (eng_discard
        (Z.to_nat (wrap (size_bits (DBE.pf p))
                        (DBE.block_size (p:=p) - DBE.used_block (p:=p))))
        (DBE.engine_ d))).
    destruct (eng_next _) as [x e']. exact Hbase.
  - specialize (Hbase (DBE.engine_ d)).
    destruct (eng_next _) as [x e']. exact Hbase.
Qed.

(** ** xorshift128_engine *)

(** Every advancement counts [n_] up, in size_t; nothing reduces it. *)
Lemma xorshift_index_after (p : Xorshift.params) (k : nat)
    (e : Xorshift.engine p) :
  0 <= size_bits (Xorshift.pf p) ->
  0 <= Xorshift.n_ e < 2 ^ size_bits (Xorshift.pf p) ->
  Xorshift.n_ (eng_discard k e)
  = wrap (size_bits (Xorshift.pf p)) (Xorshift.n_ e + Z.of_nat k).
Proof.
  intros Hsz. revert e. induction k as [|k IH]; intros e Hn.
  - simpl. rewrite Z.add_0_r. symmetry. apply wrap_small. exact Hn.
  - change (eng_discard (S k) e)
      with (eng_discard k (snd (Xorshift.next e))).
    rewrite IH.
    + unfold Xorshift.next. simpl. unfold wrap.
      rewrite Zplus_mod_idemp_l. f_equal. lia.
    + unfold Xorshift.next. simpl. apply wrap_range. exact Hsz.
Qed.

Lemma xorshift_buffer_length (p : Xorshift.params) (k : nat)
    (e : Xorshift.engine p) :
  length (Xorshift.buf_ (eng_discard k e)) = length (Xorshift.buf_ e).
Proof.
  revert e. induction k as [|k IH]; intros e; [reflexivity|].
  change (eng_discard (S k) e) with (eng_discard k (snd (Xorshift.next e))).
  rewrite IH. unfold Xorshift.next. simpl. apply aset_length.
Qed.

(** [seed(value)] stays inside the buffer exactly when [n_] is below its
    size. *)
Lemma xorshift_seed_defined (p : Xorshift.params) (v : Z)
    (e : Xorshift.engine p) :
  is_Some (Xorshift.seed v e)
  <-> 0 <= Xorshift.n_ e < Z.of_nat (length (Xorshift.buf_ e)).
Proof.
  unfold Xorshift.seed, aset_checked.
  destruct (Z.leb_spec 0 (Xorshift.n_ e)) as [H0|H0];
    destruct (Z.ltb_spec (Xorshift.n_ e)
                (Z.of_nat (length (Xorshift.buf_ e)))) as [H1|H1]; simpl;
    split; intros Hs; try lia; try (eexists; reflexivity);
    destruct Hs as [? Hs]; discriminate Hs.
Qed.

(** After [k] advancements of a constructed engine, [4 <= k < 2^16] on an
    AVR board, [seed] writes outside the buffer. *)
Lemma xorshift_seed_after_advancing (k : nat) (v s0 : Z) :
  4 <= Z.of_nat k < 65536 ->
  Xorshift.seed v (eng_discard k (Xorshift.ctor_default (p:=xorshift32))) = None
  /\ Xorshift.seed v (eng_discard k (Xorshift.ctor (p:=xorshift32) s0)) = None.
Proof.
  intros Hk.
  assert (Hgen : forall e : Xorshift.engine xorshift32,
             Xorshift.n_ e = 0 -> length (Xorshift.buf_ e) = 4%nat ->
             Xorshift.seed v (eng_discard k e) = None).
  { intros e Hn Hlen.
    destruct (Xorshift.seed v (eng_discard k e)) as [e'|] eqn:Hs;
      [|reflexivity].
    assert (Hd : is_Some (Xorshift.seed v (eng_discard k e)))
      by (rewrite Hs; eexists; reflexivity).
    apply xorshift_seed_defined in Hd.
    rewrite xorshift_buffer_length, Hlen in Hd.
    rewrite xorshift_index_after, Hn in Hd
      by (rewrite ?Hn; change (size_bits (Xorshift.pf xorshift32)) with 16;
          lia).
    change (size_bits (Xorshift.pf xorshift32)) with 16 in Hd.
    rewrite wrap_small in Hd by (change (2 ^ 16) with 65536; lia).
    simpl in Hd. lia. }
  split; apply Hgen; reflexivity.
Qed.

(** C2, at a failing input: xorshift128_engine<uint32_t>, default
    constructed and advanced four times, has [n_ = 4]; [seed(v)] then
    writes [buf_[4]], outside the four-element buffer, for every [v]:
    none of the four slots receives [v]. *)
Theorem xorshift_seed_out_of_bounds :
  let e4 := eng_discard 4 (Xorshift.ctor_default (p:=xorshift32)) in
  Xorshift.n_ e4 = 4 /\
  length (Xorshift.buf_ e4) = 4%nat /\
  forall v : Z, Xorshift.seed v e4 = None.
Proof.
  cbn zeta. repeat apply conj; [vm_compute; reflexivity ..|].
  intros v. unfold Xorshift.seed, aset_checked.
  replace (Xorshift.n_ (eng_discard 4 (Xorshift.ctor_default (p:=xorshift32))))
    with 4 by (vm_compute; reflexivity).
  replace (length (Xorshift.buf_
             (eng_discard 4 (Xorshift.ctor_default (p:=xorshift32)))))
    with 4%nat by (vm_compute; reflexivity).
  reflexivity.
Qed.

(** C3, at a failing input: xorshift128_engine<uint32_t> constructed from
    the seed 638954829 returns 4294967295 at its first advancement, above
    [max()], which is 4294967294. *)
Theorem xorshift_output_above_max :
  fst (Xorshift.next (Xorshift.ctor (p:=xorshift32) 638954829)) = 4294967295 /\
  Xorshift.max (p:=xorshift32) = 4294967294 /\
  ~ (fst (eng_next (eng_ctor (E:=Xorshift.engine xorshift32) 638954829))
     <= eng_max (Xorshift.engine xorshift32)).
Proof.
  repeat apply conj; try (vm_compute; reflexivity).
  vm_compute. intros Hle. apply Hle. reflexivity.
Qed.

(** ** subtract_with_carry_engine *)

Section SWCFacts.
Context (p : SWC.params).
Hypothesis Hvalid : SWC.valid p.

(** The modulus of the code is 2 to the long lag [r]. *)
Lemma swc_M_eq : SWC.M (p:=p) = 2 ^ SWC.r p.
Proof.
  pose proof Hvalid as (Hw & Hs & Hsr & Hrb & Hrs).
  unfold SWC.M. rewrite Z.shiftl_1_l. apply wrap_small.
  split; [apply Z.pow_nonneg; lia|].
  apply Z.pow_lt_mono_r; lia.
Qed.

Lemma swc_max_eq : SWC.max (p:=p) = 2 ^ SWC.r p - 1.
Proof.
  pose proof Hvalid as (Hw & Hs & Hsr & Hrb & Hrs).
  unfold SWC.max. rewrite swc_M_eq. apply wrap_small.
  assert (0 < 2 ^ SWC.r p) by (apply Z.pow_pos_nonneg; lia).
  assert (2 ^ SWC.r p < 2 ^ SWC.bits p) by (apply Z.pow_lt_mono_r; lia).
  lia.
Qed.

(** Every advancement returns, and stores, the raw difference reduced
    modulo [2 ^ r]; it lies between [min()] and [max()]. *)
Lemma swc_next_output (e : SWC.engine p) :
  fst (SWC.next e)
  = SWC.sN (p:=p) (SWC.X_ e) (SWC.cy_ e) (SWC.i_ e) mod 2 ^ SWC.r p /\
  SWC.min (p:=p) <= fst (SWC.next e) <= SWC.max (p:=p).
Proof.
  pose proof Hvalid as (Hw & Hs & Hsr & Hrb & Hrs).
  unfold SWC.next. simpl. rewrite swc_max_eq, swc_M_eq.
  split; [reflexivity|]. unfold SWC.min, numeric_min.
  assert (0 < 2 ^ SWC.r p) as Hpos by (apply Z.pow_pos_nonneg; lia).
  pose proof (Z.mod_pos_bound
                (SWC.sN (p:=p) (SWC.X_ e) (SWC.cy_ e) (SWC.i_ e))
                _ Hpos).
  lia.
Qed.
End SWCFacts.

(** [seed(value)] does not touch the position [i_]. *)
Lemma swc_seed_keeps_position (p : SWC.params) (v : Z) (e : SWC.engine p) :
  SWC.i_ (SWC.seed v e) = SWC.i_ e.
Proof.
  unfold SWC.seed. destruct (SWC.seed_loop _ _ _ _ _) as [X cy]. reflexivity.
Qed.

(** The value buffer that the seeding loop leaves: the slots from [i] on
    receive the successive values of the generator that drives it. *)
Lemma swc_seed_loop_X (p : SWC.params) (k i : nat)
    (lcg : LCG.engine (minstd_rand (SWC.pf p))) (X cy : list Z) :
  (i + k <= length X)%nat ->
  fst (SWC.seed_loop (p:=p) k (Z.of_nat i) lcg X cy)
  = take i X ++ map (wrap (SWC.bits p)) (fst (outputs k lcg))
      ++ drop (i + k) X.
Proof.
  revert i lcg X cy. induction k as [|k IH]; intros i lcg X cy Hlen.
  - simpl. rewrite Nat.add_0_r. symmetry. apply take_drop.
  - cbn [SWC.seed_loop outputs].
    change (@eng_next (LCG.engine (minstd_rand (SWC.pf p))) _ lcg)
      with (LCG.next lcg).
    destruct (LCG.next lcg) as [x lcg'] eqn:Hnext.
    replace (Z.of_nat i + 1) with (Z.of_nat (S i)) by lia.
    rewrite IH by (rewrite aset_length; lia).
    destruct (outputs k lcg') as [xs lcg''] eqn:Hout. cbn [fst map].
    unfold aset. rewrite Nat2Z.id.
    rewrite (take_S_r _ i (wrap (SWC.bits p) x))
      by (apply list_lookup_insert_eq; lia).
    rewrite take_insert_ge by lia.
    rewrite drop_insert_lt by lia.
    rewrite <- app_assoc. cbn [app].
    replace (S i + k)%nat with (i + S k)%nat by lia. reflexivity.
Qed.

(** [seed(v)] overwrites the whole value buffer with the first [r] values
    of minstd_rand constructed from [v], whatever the buffer held. *)
Lemma swc_seed_X (p : SWC.params) (v : Z) (e : SWC.engine p) :
  length (SWC.X_ e) = Z.to_nat (SWC.r p) ->
  SWC.X_ (SWC.seed v e)
  = map (wrap (SWC.bits p))
        (fst (outputs (Z.to_nat (SWC.r p))
                (LCG.ctor (p:=minstd_rand (SWC.pf p))
                          (wrap (fast32_bits (SWC.pf p)) v)))).
Proof.
  intros Hlen. unfold SWC.seed.
  pose proof (swc_seed_loop_X p (Z.to_nat (SWC.r p)) 0
                (LCG.ctor (wrap (fast32_bits (SWC.pf p)) v))
                (SWC.X_ e) (SWC.cy_ e)) as HX.
  change (Z.of_nat 0) with 0 in HX.
  destruct (SWC.seed_loop _ _ _ _ _) as [X cy]. simpl in *.
  rewrite HX by lia.
  rewrite drop_ge by lia. apply app_nil_r.
Qed.

(** C1, at failing inputs. In ranlux48_base the modulus is [1 << 12], from
    the long lag, so [max()] is 4095 and not [2^48 - 1], and on a 64-bit
    platform the first value after default construction is the raw
    difference 18446744073691360946 reduced to 3762, where modulo [2^48]
    it is 281474958519986; in ranlux24_base, default constructed on an
    AVR board, [X_[0]] holds 1341920601, which is not below [2^24]. *)
Theorem swc_modulus_from_long_lag :
  SWC.max (p:=ranlux48_base lp64) = 4095 /\
  2 ^ SWC.w (ranlux48_base lp64) - 1 = 281474976710655 /\
  (let e := SWC.ctor (p:=ranlux48_base lp64) SWC.default_seed in
   SWC.sN (p:=ranlux48_base lp64) (SWC.X_ e) (SWC.cy_ e) (SWC.i_ e)
   = 18446744073691360946 /\
   fst (SWC.next e) = 3762 /\
   18446744073691360946 mod 2 ^ SWC.w (ranlux48_base lp64)
   = 281474958519986) /\
  (let e := SWC.ctor (p:=ranlux24_base avr) SWC.default_seed in
   aget (SWC.X_ e) 0 = 1341920601 /\
   2 ^ SWC.w (ranlux24_base avr) = 16777216).
Proof. cbn zeta. repeat apply conj; vm_compute; reflexivity. Qed.

(** C4, at failing inputs, for ranlux24_base on an AVR board. An engine
    constructed from 1 and a default-constructed engine reseeded with 1
    hold the same [X_] and different [cy_], and compare unequal; a
    default-constructed engine advanced once and then reseeded with 1
    holds the buffers of the second and compares equal to it, but keeps
    [i_ = 1] where the second has [i_ = 0], and the two produce different
    values. *)
Theorem swc_seed_depends_on_history :
  let a : SWC.engine (ranlux24_base avr) := SWC.ctor 1 in
  let b : SWC.engine (ranlux24_base avr) :=
    SWC.seed 1 (SWC.ctor SWC.default_seed) in
  let c : SWC.engine (ranlux24_base avr) :=
    SWC.seed 1 (snd (SWC.next (SWC.ctor SWC.default_seed))) in
  SWC.X_ a = SWC.X_ b /\
  firstn 8 (SWC.cy_ a) = [0; 0; 0; 0; 0; 0; 0; 0] /\
  firstn 8 (SWC.cy_ b) = [0; 0; 1; 0; 1; 1; 1; 1] /\
  SWC.eqb a b = false /\
  SWC.X_ b = SWC.X_ c /\ SWC.cy_ b = SWC.cy_ c /\ SWC.eqb b c = true /\
  SWC.i_ b = 0 /\ SWC.i_ c = 1 /\
  fst (outputs 3 b) = [2496755; 10118076; 8159889] /\
  fst (outputs 3 c) = [10118077; 8159889; 7350157].
Proof. cbn zeta. repeat apply conj; vm_compute; reflexivity. Qed.

(** * Further properties of the engines *)

(** ** Bit operations on words *)

Lemma lxor_in_range (bits a b : Z) :
  in_range bits a -> in_range bits b -> in_range bits (Z.lxor a b).
Proof.
  unfold in_range. intros [Ha0 Ha] [Hb0 Hb].
  assert (H0 : 0 <= Z.lxor a b) by (apply Z.lxor_nonneg; tauto).
  split; [exact H0|].
  destruct (Z.eq_dec (Z.lxor a b) 0) as [Hz|Hnz]; [lia|].
  assert (Hbits : 0 < bits).
  { destruct (Z.lt_ge_cases 0 bits) as [Hp|Hn]; [exact Hp|exfalso].
    assert (H1 : 2 ^ bits <= 1).
    { destruct (Z.eq_dec bits 0) as [->|Hne]; [simpl; lia|].
      rewrite Z.pow_neg_r by lia. lia. }
    assert (a = 0) by lia. assert (b = 0) by lia. subst. apply Hnz. reflexivity. }
  assert (Hlog : forall x, 0 <= x < 2 ^ bits -> Z.log2 x < bits).
  { intros x [Hx0 Hx]. destruct (Z.eq_dec x 0) as [->|Hx1]; [simpl; lia|].
    apply Z.log2_lt_pow2; lia. }
  apply Z.log2_lt_pow2; [lia|].
  pose proof (Z.log2_lxor a b Ha0 Hb0).
  pose proof (Hlog a (conj Ha0 Ha)). pose proof (Hlog b (conj Hb0 Hb)). lia.
Qed.

Lemma shiftr_in_range (bits a k : Z) :
  0 <= k -> in_range bits a -> in_range bits (Z.shiftr a k).
Proof.
  unfold in_range. intros Hk [Ha0 Ha]. rewrite Z.shiftr_div_pow2 by exact Hk.
  assert (0 < 2 ^ k) by (apply Z.pow_pos_nonneg; lia).
  split; [apply Z.div_pos; lia|].
  apply Z.le_lt_trans with a; [|exact Ha].
  apply Z.div_le_upper_bound; [lia|]. nia.
Qed.

Lemma wrap_in_range (bits x : Z) : 0 <= bits -> in_range bits (wrap bits x).
Proof. apply wrap_range. Qed.

(** [t ^ (t >> 8)] is 0 only for [t = 0]. *)
Lemma xor_shiftr_zero (t : Z) :
  0 <= t -> Z.lxor t (Z.shiftr t 8) = 0 -> t = 0.
Proof.
  intros Ht Hx. apply Z.lxor_eq in Hx.
  rewrite Z.shiftr_div_pow2 in Hx by lia.
  destruct (Z.eq_dec t 0) as [Hz|Hnz]; [exact Hz|exfalso].
  pose proof (Z.div_lt t (2 ^ 8) ltac:(lia) ltac:(simpl; lia)). lia.
Qed.

(** [x ^ (x << 11)], computed in a type of [bits] bits, is 0 only for
    [x = 0]. *)
Lemma xor_shiftl_zero (bits x : Z) :
  0 <= bits -> in_range bits x ->
  Z.lxor x (wrap bits (Z.shiftl x 11)) = 0 -> x = 0.
Proof.
  unfold in_range, wrap. intros Hb [Hx0 Hx] Heq. apply Z.lxor_eq in Heq.
  rewrite Z.shiftl_mul_pow2 in Heq by lia. change (2 ^ 11) with 2048 in Heq.
  assert (Hpos : 0 < 2 ^ bits) by (apply Z.pow_pos_nonneg; lia).
  pose proof (Z.div_mod (x * 2048) (2 ^ bits) ltac:(lia)) as Hdm.
  rewrite <- Heq in Hdm.
  assert (Hdiv : (2 ^ bits | 2047 * x)).
  { exists ((x * 2048) / 2 ^ bits).
    generalize dependent ((x * 2048) / 2 ^ bits).
    generalize dependent (2 ^ bits). intros; nia. }
  apply Z.gauss in Hdiv.
  - destruct Hdiv as [q Hq]. generalize dependent (2 ^ bits). intros P **.
    destruct (Z.le_gt_cases q 0); nia.
  - rewrite Z.gcd_comm. apply (Z.coprime_pow_r 2047 2 bits Hb). reflexivity.
Qed.

(** ** xorshift128_engine: the states it passes through *)

Lemma aget_in_range (bits : Z) (l : list Z) (i : Z) :
  0 <= bits -> Forall (in_range bits) l -> in_range bits (aget l i).
Proof.
  intros Hb Hl. unfold aget.
  destruct (l !! Z.to_nat i) as [x|] eqn:Hx; simpl.
  - exact (Forall_lookup_1 _ _ _ _ Hl Hx).
  - unfold in_range. split; [lia|]. apply Z.pow_pos_nonneg; lia.
Qed.

Lemma aget_all_zero (l : list Z) (i : Z) : all_zero l -> aget l i = 0.
Proof.
  intros Hl. unfold aget.
  destruct (l !! Z.to_nat i) as [x|] eqn:Hx; simpl; [|reflexivity].
  exact (Forall_lookup_1 _ _ _ _ Hl Hx).
Qed.

Lemma mod4_of_wrap (sz y : Z) : 2 <= sz -> wrap sz y mod 4 = y mod 4.
Proof.
  intros Hsz. unfold wrap. apply Z.mod_mod_divide.
  exists (2 ^ (sz - 2)). change 4 with (2 ^ 2).
  rewrite <- Z.pow_add_r by lia. f_equal. lia.
Qed.

Section XorshiftFacts.
Context (p : Xorshift.params).
Hypothesis Hbits : 0 <= Xorshift.bits p.
Hypothesis Hsz : 2 <= size_bits (Xorshift.pf p).

(** The slot an advancement writes and the slot it reads [w] from. *)
Lemma xorshift_slots (n : Z) :
  let n1 := wrap (size_bits (Xorshift.pf p)) (n + 1) in
  n1 mod Xorshift.state_size = (n + 1) mod 4 /\
  wrap (size_bits (Xorshift.pf p)) (n1 - 1) mod Xorshift.state_size
  = ((n + 1) mod 4 + 3) mod 4.
Proof.
  cbn zeta. unfold Xorshift.state_size.
  rewrite !mod4_of_wrap by exact Hsz. split; [reflexivity|].
  rewrite Zminus_mod, mod4_of_wrap by exact Hsz.
  rewrite <- Zminus_mod.
  replace (n + 1 - 1) with (n + 1 + 3 + (-1) * 4) by lia.
  rewrite Z.mod_add by lia. rewrite Zplus_mod_idemp_l. reflexivity.
Qed.

Lemma xorshift_next_state (e : Xorshift.engine p) :
  xorshift_state e ->
  in_range (Xorshift.bits p) (fst (Xorshift.next e)) /\
  xorshift_state (snd (Xorshift.next e)).
Proof.
  intros (Hlen & Hbuf & Hn).
  assert (Hout : in_range (Xorshift.bits p) (fst (Xorshift.next e))).
  { unfold Xorshift.next. simpl.
    repeat first
      [ apply lxor_in_range | apply shiftr_in_range; [lia|]
      | apply wrap_in_range; exact Hbits
      | apply aget_in_range; [exact Hbits | exact Hbuf] ]. }
  split; [exact Hout|]. unfold Xorshift.next in *.
  cbn [fst snd] in *. unfold xorshift_state.
  cbn [Xorshift.buf_ Xorshift.n_]. split; [|split].
  - rewrite aset_length. exact Hlen.
  - unfold aset. apply Forall_insert; assumption.
  - apply wrap_in_range. lia.
Qed.

Lemma xorshift_state_after (k : nat) (e : Xorshift.engine p) :
  xorshift_state e -> xorshift_state (eng_discard k e).
Proof.
  revert e. induction k as [|k IH]; intros e He; [exact He|].
  change (eng_discard (S k) e) with (eng_discard k (snd (Xorshift.next e))).
  apply IH. apply xorshift_next_state. exact He.
Qed.

Lemma xorshift_ctor_state (s0 : Z) :
  in_range (Xorshift.bits p) s0 ->
  xorshift_state (Xorshift.ctor_default (p:=p)) /\
  xorshift_state (Xorshift.ctor (p:=p) s0).
Proof.
  intros Hs.
  assert (HS : Forall (in_range (Xorshift.bits p)) (Xorshift.Seeds (p:=p))).
  { unfold Xorshift.Seeds. apply Forall_forall. intros x Hx.
    apply list_elem_of_In, in_map_iff in Hx. destruct Hx as (y & <- & _).
    apply wrap_in_range. exact Hbits. }
  assert (Hn : in_range (size_bits (Xorshift.pf p)) 0).
  { split; [lia|]. apply Z.pow_pos_nonneg; lia. }
  split; (split; [|split]); simpl; try exact Hn; try exact HS.
  - reflexivity.
  - reflexivity.
  - unfold aset. apply Forall_insert; assumption.
Qed.

(** A state that is not all zero is followed by one that is not all
    zero. *)
Lemma xorshift_next_nonzero (e : Xorshift.engine p) :
  xorshift_state e ->
  all_zero (Xorshift.buf_ (snd (Xorshift.next e))) ->
  all_zero (Xorshift.buf_ e).
Proof.
  intros (Hlen & Hbuf & Hn) Hz.
  pose proof (xorshift_slots (Xorshift.n_ e)) as [Hj Hjw]. cbn zeta in Hj, Hjw.
  unfold Xorshift.next in Hz. simpl in Hz. rewrite Hj, Hjw in Hz.
  clear Hj Hjw.
  remember ((Xorshift.n_ e + 1) mod 4) as j eqn:Ej.
  assert (Hjr : 0 <= j < 4) by (subst j; apply Z.mod_pos_bound; lia).
  remember ((j + 3) mod 4) as jw eqn:Ejw.
  assert (Hjwr : 0 <= jw < 4 /\ jw <> j).
  { pose proof (Z.mod_pos_bound (j + 3) 4 ltac:(lia)).
    split; [lia|]. intros Heq.
    pose proof (Z.div_mod (j + 3) 4 ltac:(lia)) as Hd.
    rewrite <- Ejw, Heq in Hd. lia. }
  clear Ej Ejw.
  set (x := aget (Xorshift.buf_ e) j) in *.
  set (w := aget (Xorshift.buf_ e) jw) in *.
  set (t := Z.lxor x (wrap (Xorshift.bits p) (Z.shiftl x 11))) in *.
  set (v := Z.lxor (Z.lxor w (Z.shiftr w 19)) (Z.lxor t (Z.shiftr t 8))) in *.
  assert (Hrest : forall i y, i <> Z.to_nat j ->
            Xorshift.buf_ e !! i = Some y -> y = 0).
  { intros i y Hi Hy. apply (Forall_lookup_1 _ _ i y Hz).
    unfold aset. rewrite list_lookup_insert_ne by congruence. exact Hy. }
  assert (Hv : v = 0).
  { apply (Forall_lookup_1 _ _ (Z.to_nat j) v Hz).
    unfold aset. apply list_lookup_insert_eq. lia. }
  assert (Hw : w = 0).
  { subst w. unfold aget.
    destruct (Xorshift.buf_ e !! Z.to_nat jw) as [y|] eqn:Hy; [|reflexivity].
    simpl. apply (Hrest (Z.to_nat jw) y); [lia | exact Hy]. }
  assert (Hx : x = 0).
  { assert (Hxr : in_range (Xorshift.bits p) x)
      by (apply aget_in_range; assumption).
    apply (xor_shiftl_zero (Xorshift.bits p)); [exact Hbits | exact Hxr |].
    fold t. apply xor_shiftr_zero.
    - subst t. apply Z.lxor_nonneg. unfold in_range in Hxr.
      pose proof (wrap_range (Xorshift.bits p) (Z.shiftl x 11) Hbits). lia.
    - subst v. rewrite Hw in Hv. simpl in Hv. exact Hv. }
  apply Forall_lookup_2. intros i y Hy.
  destruct (Nat.eq_dec i (Z.to_nat j)) as [->|Hne].
  - subst x. unfold aget in Hx. rewrite Hy in Hx. exact Hx.
  - exact (Hrest i y Hne Hy).
Qed.
End XorshiftFacts.

(** X1. Every word an xorshift128_engine constructed by default or from
    a seed value returns lies between [min()] and [max() + 1], the
    largest value of UIntType. *)
Theorem xorshift_outputs_fit_type (p : Xorshift.params) (s0 : Z) (k : nat) :
  0 <= Xorshift.bits p -> 2 <= size_bits (Xorshift.pf p) ->
  in_range (Xorshift.bits p) s0 ->
  Xorshift.min (p:=p) <= output_at (Xorshift.ctor (p:=p) s0) k
    <= Xorshift.max (p:=p) + 1 /\
  Xorshift.min (p:=p) <= output_at (Xorshift.ctor_default (p:=p)) k
    <= Xorshift.max (p:=p) + 1.
Proof.
  intros Hb Hsz Hs.
  destruct (xorshift_ctor_state p Hb Hsz s0 Hs) as [Hd Hc].
  unfold output_at, Xorshift.min, Xorshift.max, numeric_min, numeric_max.
  pose proof (xorshift_next_state p Hb Hsz _
                (xorshift_state_after p Hb Hsz k _ Hc)) as [[? ?] _].
  pose proof (xorshift_next_state p Hb Hsz _
                (xorshift_state_after p Hb Hsz k _ Hd)) as [[? ?] _].
  change (@eng_next (Xorshift.engine p) _) with (Xorshift.next (p:=p)).
  lia.
Qed.

Lemma xorshift_outputs_fit_type_witness :
  Xorshift.min (p:=xorshift32) <= output_at (Xorshift.ctor (p:=xorshift32) 7) 9
    <= Xorshift.max (p:=xorshift32) + 1 /\
  Xorshift.min (p:=xorshift32)
    <= output_at (Xorshift.ctor_default (p:=xorshift32)) 9
    <= Xorshift.max (p:=xorshift32) + 1.
Proof.
  apply (xorshift_outputs_fit_type xorshift32 7 9).
  - simpl. lia.
  - simpl. lia.
  - unfold in_range. simpl. lia.
Defined.

(** X2. An xorshift128_engine whose four words are not all zero never
    reaches a state whose four words are all zero. *)
Theorem xorshift_never_all_zero (p : Xorshift.params)
    (e : Xorshift.engine p) (k : nat) :
  0 <= Xorshift.bits p -> 2 <= size_bits (Xorshift.pf p) ->
  xorshift_state e -> ~ all_zero (Xorshift.buf_ e) ->
  ~ all_zero (Xorshift.buf_ (eng_discard k e)).
Proof.
  intros Hb Hsz. revert e. induction k as [|k IH]; intros e He Hnz.
  - exact Hnz.
  - change (eng_discard (S k) e) with (eng_discard k (snd (Xorshift.next e))).
    apply IH.
    + apply (xorshift_next_state p Hb Hsz e He).
    + intros Hz. apply Hnz. exact (xorshift_next_nonzero p Hb Hsz e He Hz).
Qed.

Lemma xorshift_never_all_zero_witness :
  ~ all_zero (Xorshift.buf_ (eng_discard 5 (Xorshift.ctor_default (p:=xorshift32)))).
Proof.
  apply (xorshift_never_all_zero xorshift32).
  - simpl. lia.
  - simpl. lia.
  - split; [reflexivity|]. split.
    + change (Forall (in_range 32)
                [88675123; 123456789; 362436069; 521288629]).
      repeat (apply Forall_cons_2; [unfold in_range; simpl; lia|]).
      apply Forall_nil_2.
    + unfold in_range. simpl. lia.
  - intros Hz. inversion Hz as [|x l Hx Hl]. discriminate Hx.
Defined.

(** X3. With all four words zero, every advancement returns 0 and leaves
    the four words zero, whatever the index. *)
Theorem xorshift_zero_is_absorbing (p : Xorshift.params)
    (e : Xorshift.engine p) (k : nat) :
  all_zero (Xorshift.buf_ e) ->
  output_at e k = 0 /\ all_zero (Xorshift.buf_ (eng_discard (S k) e)).
Proof.
  assert (Hstep : forall e : Xorshift.engine p,
             all_zero (Xorshift.buf_ e) ->
             fst (Xorshift.next e) = 0 /\
             all_zero (Xorshift.buf_ (snd (Xorshift.next e)))).
  { intros e0 Hz. unfold Xorshift.next. cbn [fst snd Xorshift.buf_].
    rewrite !(aget_all_zero _ _ Hz).
    rewrite Z.shiftl_0_l. unfold wrap. rewrite Zmod_0_l.
    split; [reflexivity|]. unfold aset.
    apply Forall_insert; [exact Hz | reflexivity]. }
  revert e. induction k as [|k IH]; intros e Hz.
  - unfold output_at. simpl eng_discard.
    apply (Hstep e Hz).
  - destruct (Hstep e Hz) as [_ Hz'].
    specialize (IH (snd (Xorshift.next e)) Hz').
    exact IH.
Qed.

Lemma xorshift_zero_is_absorbing_witness :
  let e : Xorshift.engine xorshift32 := Xorshift.Engine_ [0; 0; 0; 0] 2 in
  output_at e 6 = 0 /\ all_zero (Xorshift.buf_ (eng_discard 7 e)).
Proof.
  intros e. apply (xorshift_zero_is_absorbing xorshift32 e 6).
  repeat constructor.
Defined.

(** X4. An advancement of xorshift128_engine writes one slot of the
    buffer, the one cyclically after the index, with the value it returns;
    it reads [x] from that slot and [w] from the slot cyclically before
    it, also when the size_t index wraps around; the other three slots
    stay as they are. *)
Theorem xorshift_next_writes_one_slot (p : Xorshift.params)
    (e : Xorshift.engine p) :
  2 <= size_bits (Xorshift.pf p) ->
  length (Xorshift.buf_ e) = 4%nat ->
  let j := (Xorshift.n_ e + 1) mod 4 in
  let x := aget (Xorshift.buf_ e) j in
  let w := aget (Xorshift.buf_ e) ((j + 3) mod 4) in
  let t := Z.lxor x (wrap (Xorshift.bits p) (Z.shiftl x 11)) in
  let e' := snd (Xorshift.next e) in
  fst (Xorshift.next e)
  = Z.lxor (Z.lxor w (Z.shiftr w 19)) (Z.lxor t (Z.shiftr t 8)) /\
  Xorshift.buf_ e' !! Z.to_nat j = Some (fst (Xorshift.next e)) /\
  (forall i : nat, i <> Z.to_nat j ->
     Xorshift.buf_ e' !! i = Xorshift.buf_ e !! i) /\
  length (Xorshift.buf_ e') = 4%nat /\
  Xorshift.n_ e' = wrap (size_bits (Xorshift.pf p)) (Xorshift.n_ e + 1).
Proof.
  intros Hsz Hlen. cbn zeta.
  pose proof (xorshift_slots p Hsz (Xorshift.n_ e)) as [Hj Hjw].
  cbn zeta in Hj, Hjw.
  unfold Xorshift.next. cbn [fst snd Xorshift.buf_ Xorshift.n_].
  rewrite Hj, Hjw.
  pose proof (Z.mod_pos_bound (Xorshift.n_ e + 1) 4 ltac:(lia)) as Hr.
  remember ((Xorshift.n_ e + 1) mod 4) as j eqn:Ej. clear Ej Hj Hjw.
  repeat apply conj.
  - reflexivity.
  - unfold aset. apply list_lookup_insert_eq. lia.
  - intros i Hi. unfold aset. apply list_lookup_insert_ne. congruence.
  - rewrite aset_length. exact Hlen.
  - reflexivity.
Qed.

Lemma xorshift_next_writes_one_slot_witness :
  let e := Xorshift.ctor_default (p:=xorshift32) in
  let e' := snd (Xorshift.next e) in
  Xorshift.buf_ e' !! 1%nat = Some (fst (Xorshift.next e)) /\
  (forall i : nat, i <> 1%nat ->
     Xorshift.buf_ e' !! i = Xorshift.buf_ e !! i).
Proof.
  intros e e'.
  pose proof (xorshift_next_writes_one_slot xorshift32 e
                ltac:(simpl; lia) eq_refl) as H.
  cbn zeta in H. destruct H as (_ & Hw & Hrest & _).
  split; [exact Hw | exact Hrest].
Defined.

(** X5. On a constructed xorshift128_engine that has been advanced [k]
    times ([k] a size_t), [seed(v)] writes inside the buffer exactly when
    [k < 4]. *)
Theorem xorshift_seed_in_bounds_iff (p : Xorshift.params) (s0 v : Z)
    (k : nat) :
  2 <= size_bits (Xorshift.pf p) ->
  Z.of_nat k < 2 ^ size_bits (Xorshift.pf p) ->
  (is_Some (Xorshift.seed v (eng_discard k (Xorshift.ctor (p:=p) s0)))
   <-> (k < 4)%nat) /\
  (is_Some (Xorshift.seed v (eng_discard k (Xorshift.ctor_default (p:=p))))
   <-> (k < 4)%nat).
Proof.
  intros Hsz Hk.
  assert (Hgen : forall e : Xorshift.engine p,
             Xorshift.n_ e = 0 -> length (Xorshift.buf_ e) = 4%nat ->
             is_Some (Xorshift.seed v (eng_discard k e)) <-> (k < 4)%nat).
  { intros e Hn Hlen. rewrite xorshift_seed_defined.
    rewrite xorshift_buffer_length, Hlen.
    rewrite xorshift_index_after, Hn by (rewrite ?Hn; lia).
    rewrite wrap_small by lia. lia. }
  split; apply Hgen; reflexivity.
Qed.

Lemma xorshift_seed_in_bounds_iff_witness :
  (is_Some (Xorshift.seed 9 (eng_discard 3 (Xorshift.ctor (p:=xorshift32) 5)))
   <-> (3 < 4)%nat) /\
  (is_Some (Xorshift.seed 9
              (eng_discard 3 (Xorshift.ctor_default (p:=xorshift32))))
   <-> (3 < 4)%nat).
Proof.
  apply (xorshift_seed_in_bounds_iff xorshift32 5 9 3).
  - simpl. lia.
  - vm_compute. reflexivity.
Defined.

(** ** linear_congruential_engine: the stream *)

(** X6. Where UIntType holds [a * (m - 1) + c], the values an engine
    produces from a state below [m] are the iterates of the recurrence
    x = (a*x + c) mod m over the integers. *)
Theorem lcg_stream_is_recurrence (p : LCG.params) (e : LCG.engine p)
    (k : nat) :
  LCG.valid p ->
  LCG.a p * (LCG.m p - 1) + LCG.c p < 2 ^ LCG.bits p ->
  0 <= LCG.lcg_ e < LCG.m p ->
  output_at e k
  = Nat.iter (S k) (recurrence (LCG.a p) (LCG.c p) (LCG.m p)) (LCG.lcg_ e).
Proof.
  intros (Hm & Ha & Ham & Hc & Hcm & Hmb) Hfit He.
  assert (Hstate : forall j,
             LCG.lcg_ (eng_discard j e)
             = Nat.iter j (recurrence (LCG.a p) (LCG.c p) (LCG.m p))
                        (LCG.lcg_ e) /\
             0 <= LCG.lcg_ (eng_discard j e) < LCG.m p).
  { induction j as [|j [IHj IHr]]; [split; [reflexivity | exact He]|].
    rewrite eng_discard_succ.
    change (@eng_next (LCG.engine p) _) with (LCG.next (p:=p)).
    assert (Hex : fst (LCG.next (eng_discard j e))
                  = recurrence (LCG.a p) (LCG.c p) (LCG.m p)
                      (LCG.lcg_ (eng_discard j e))).
    { apply lcg_next_exact. nia. }
    unfold LCG.next in *. cbn [fst snd LCG.lcg_] in *. rewrite Hex.
    split.
    - rewrite Nat.iter_succ, <- IHj. reflexivity.
    - unfold recurrence. apply Z.mod_pos_bound. exact Hm. }
  unfold output_at. destruct (Hstate k) as [Hk Hr].
  change (@eng_next (LCG.engine p) _) with (LCG.next (p:=p)).
  rewrite lcg_next_exact by nia.
  rewrite Nat.iter_succ, <- Hk. reflexivity.
Qed.

Lemma lcg_stream_is_recurrence_witness :
  output_at (LCG.ctor (p:=minstd_rand lp64) 1) 2
  = Nat.iter 3 (recurrence 48271 0 2147483647) 1.
Proof.
  apply (lcg_stream_is_recurrence (minstd_rand lp64) (LCG.ctor 1) 2).
  - unfold LCG.valid. simpl. lia.
  - vm_compute. reflexivity.
  - vm_compute. split; [intros H; discriminate H | reflexivity].
Defined.

(** X7. For valid parameters [seed(v)] leaves a state below [m]; with
    increment 0 it never leaves the state 0, from which every advancement
    would return 0 and stay there. *)
Theorem lcg_seed_avoids_zero (p : LCG.params) (v : Z) (e : LCG.engine p) :
  LCG.valid p ->
  0 <= LCG.lcg_ (LCG.seed v e) < LCG.m p /\
  LCG.ctor (p:=p) v = LCG.seed v e /\
  (LCG.c p = 0 ->
   LCG.lcg_ (LCG.seed v e) <> 0 /\
   LCG.next (p:=p) (LCG.Engine_ 0) = (0, LCG.Engine_ 0)).
Proof.
  intros (Hm & Ha & Ham & Hc & Hcm & Hmb).
  pose proof (Z.mod_pos_bound v (LCG.m p) Hm) as Hv.
  unfold LCG.seed, LCG.ctor, LCG._seed, LCG.default_seed.
  cbn [LCG.lcg_]. repeat apply conj; try reflexivity.
  - destruct (_ && _); lia.
  - destruct (_ && _); lia.
  - intros Hc0. rewrite Hc0, Z.mod_0_l by lia. split.
    + destruct (Z.eqb_spec (v mod LCG.m p) 0) as [Hz|Hz]; simpl; lia.
    + unfold LCG.next. cbn [LCG.lcg_]. rewrite Hc0.
      replace (LCG.a p * 0 + 0) with 0 by lia.
      unfold wrap. rewrite !Zmod_0_l. reflexivity.
Qed.

Lemma lcg_seed_avoids_zero_witness :
  let e : LCG.engine (minstd_rand avr) := LCG.ctor 5 in
  0 <= LCG.lcg_ (LCG.seed 2147483647 e) < 2147483647 /\
  LCG.lcg_ (LCG.seed 2147483647 e) <> 0.
Proof.
  intros e.
  assert (Hv : LCG.valid (minstd_rand avr))
    by (unfold LCG.valid; simpl; lia).
  pose proof (lcg_seed_avoids_zero (minstd_rand avr) 2147483647 e Hv)
    as (Hr & _ & Hz).
  split; [exact Hr | exact (proj1 (Hz eq_refl))].
Defined.

(** X8. In minstd_rand and minstd_rand0, whose UIntType uint_fast32_t
    has at least 32 bits, every advancement, from any state and also
    where the product wraps in uint_fast32_t, returns a value between
    [min()] = 0 and [max()] = 2147483646 and leaves it as the state. *)
Theorem lcg_outputs_in_range (pf : platform)
    (e : LCG.engine (minstd_rand pf)) (e0 : LCG.engine (minstd_rand0 pf))
    (k : nat) :
  32 <= fast32_bits pf ->
  (LCG.min (p:=minstd_rand pf) = 0 /\
   LCG.max (p:=minstd_rand pf) = 2147483646 /\
   LCG.min (p:=minstd_rand pf) <= output_at e k
     <= LCG.max (p:=minstd_rand pf) /\
   LCG.lcg_ (eng_discard (S k) e) = output_at e k) /\
  (LCG.min (p:=minstd_rand0 pf) = 0 /\
   LCG.max (p:=minstd_rand0 pf) = 2147483646 /\
   LCG.min (p:=minstd_rand0 pf) <= output_at e0 k
     <= LCG.max (p:=minstd_rand0 pf) /\
   LCG.lcg_ (eng_discard (S k) e0) = output_at e0 k).
Proof.
  intros Hb.
  assert (Hp : 4294967296 <= 2 ^ fast32_bits pf)
    by (change 4294967296 with (2 ^ 32); apply pow2_le_mono; lia).
  assert (Hv : LCG.valid (minstd_rand pf))
    by (unfold LCG.valid; cbn [minstd_rand LCG.m LCG.a LCG.c LCG.bits]; lia).
  assert (Hv0 : LCG.valid (minstd_rand0 pf))
    by (unfold LCG.valid; cbn [minstd_rand0 LCG.m LCG.a LCG.c LCG.bits]; lia).
  unfold output_at. rewrite !eng_discard_succ.
  change (@eng_next (LCG.engine (minstd_rand pf)) _)
    with (LCG.next (p:=minstd_rand pf)).
  change (@eng_next (LCG.engine (minstd_rand0 pf)) _)
    with (LCG.next (p:=minstd_rand0 pf)).
  split; (split; [reflexivity|]); (split; [reflexivity|]);
    (split; [|reflexivity]).
  - apply (lcg_next_range (minstd_rand pf) _ Hv).
  - apply (lcg_next_range (minstd_rand0 pf) _ Hv0).
Qed.

Lemma lcg_outputs_in_range_witness :
  let e : LCG.engine (minstd_rand avr) := LCG.ctor 42 in
  let e0 : LCG.engine (minstd_rand0 avr) := LCG.ctor 42 in
  (0 <= output_at e 10 <= 2147483646 /\
   LCG.lcg_ (eng_discard 11 e) = output_at e 10) /\
  (0 <= output_at e0 10 <= 2147483646 /\
   LCG.lcg_ (eng_discard 11 e0) = output_at e0 10).
Proof.
  intros e e0.
  assert (Hb : 32 <= fast32_bits avr) by (simpl; lia).
  pose proof (lcg_outputs_in_range avr e e0 10 Hb)
    as [(_ & _ & Hr & Hs) (_ & _ & Hr0 & Hs0)].
  split; (split; assumption).
Defined.

(** ** subtract_with_carry_engine: buffers, carries and the recurrence *)

Lemma aget_aset_eq (l : list Z) (i v : Z) :
  0 <= i < Z.of_nat (length l) -> aget (aset l i v) i = v.
Proof.
  intros Hi. unfold aget, aset.
  rewrite list_lookup_insert_eq by lia. reflexivity.
Qed.

Lemma aget_aset_ne (l : list Z) (i j v : Z) :
  0 <= i -> 0 <= j -> i <> j -> aget (aset l i v) j = aget l j.
Proof.
  intros Hi Hj Hne. unfold aget, aset.
  rewrite list_lookup_insert_ne by lia. reflexivity.
Qed.

Lemma mod_differs_within_lag (r j k : Z) :
  0 < r -> 0 <= j -> j < k -> k < j + r -> j mod r <> k mod r.
Proof.
  intros Hr Hj Hjk Hkr Heq.
  pose proof (Z.div_mod j r ltac:(lia)) as Hdj.
  pose proof (Z.div_mod k r ltac:(lia)) as Hdk.
  rewrite <- Heq in Hdk.
  assert (Hd : k - j = r * (k / r - j / r)) by lia.
  assert (0 < k / r - j / r) by nia.
  nia.
Qed.

Lemma carry_of_is_bit (p : SWC.params) (x : Z) :
  is_bit (SWC.carry_of (p:=p) x).
Proof. unfold SWC.carry_of, is_bit. destruct (signed_neg _ _); auto. Qed.

Lemma swc_seed_loop_carries (p : SWC.params) (k : nat) (i : Z)
    (lcg : LCG.engine (minstd_rand (SWC.pf p))) (X cy : list Z) :
  Forall is_bit cy ->
  Forall is_bit (snd (SWC.seed_loop (p:=p) k i lcg X cy)).
Proof.
  revert i lcg X cy. induction k as [|k IH]; intros i lcg X cy Hcy.
  - exact Hcy.
  - cbn [SWC.seed_loop]. destruct (LCG.next lcg) as [x lcg'].
    apply IH. unfold aset. apply Forall_insert; [exact Hcy|].
    apply carry_of_is_bit.
Qed.

Lemma swc_seed_loop_lengths (p : SWC.params) (k : nat) (i : Z)
    (lcg : LCG.engine (minstd_rand (SWC.pf p))) (X cy : list Z) :
  length (fst (SWC.seed_loop (p:=p) k i lcg X cy)) = length X /\
  length (snd (SWC.seed_loop (p:=p) k i lcg X cy)) = length cy.
Proof.
  revert i lcg X cy. induction k as [|k IH]; intros i lcg X cy.
  - split; reflexivity.
  - cbn [SWC.seed_loop]. destruct (LCG.next lcg) as [x lcg'].
    destruct (IH (i + 1) lcg' (aset X i (wrap (SWC.bits p) x))
                (aset cy i (SWC.carry_of (p:=p)
                   (SWC.sN (p:=p) (aset X i (wrap (SWC.bits p) x)) cy i))))
      as [HX Hcy].
    rewrite HX, Hcy, !aset_length. split; reflexivity.
Qed.

Section SWCStream.
Context (p : SWC.params).
Hypothesis Hvalid : SWC.valid p.

Lemma swc_next_state (e : SWC.engine p) :
  swc_state e -> swc_state (snd (SWC.next e)).
Proof.
  pose proof Hvalid as (Hw & Hs & Hsr & Hrb & Hrs).
  intros (HX & Hcy & Hi). unfold SWC.next, swc_state.
  cbn [snd SWC.X_ SWC.cy_ SWC.i_]. rewrite !aset_length.
  split; [exact HX|]. split; [exact Hcy|].
  apply wrap_in_range.
  destruct (Z.lt_ge_cases (size_bits (SWC.pf p)) 0) as [Hneg|Hpos]; [|lia].
  rewrite Z.pow_neg_r in Hrs by lia. lia.
Qed.

Lemma swc_state_after (k : nat) (e : SWC.engine p) :
  swc_state e -> swc_state (eng_discard k e).
Proof.
  revert e. induction k as [|k IH]; intros e He; [exact He|].
  change (eng_discard (S k) e) with (eng_discard k (snd (SWC.next e))).
  apply IH. apply swc_next_state. exact He.
Qed.

Lemma swc_ctor_state (v : Z) : swc_state (SWC.ctor (p:=p) v).
Proof.
  pose proof Hvalid as (Hw & Hs & Hsr & Hrb & Hrs).
  unfold SWC.ctor, SWC.seed, swc_state. cbn [SWC.X_ SWC.cy_ SWC.i_].
  pose proof (swc_seed_loop_lengths p (Z.to_nat (SWC.r p)) 0
                (LCG.ctor (wrap (fast32_bits (SWC.pf p)) v))
                (SWC.zeros (p:=p)) (SWC.zeros (p:=p))) as [HX Hcy].
  destruct (SWC.seed_loop _ _ _ _ _) as [X cy]. cbn [fst snd] in *.
  cbn [SWC.X_ SWC.cy_ SWC.i_].
  unfold SWC.zeros in HX, Hcy. rewrite length_replicate in HX, Hcy.
  split; [exact HX|]. split; [exact Hcy|].
  unfold in_range. split; [lia|].
  destruct (Z.lt_ge_cases (size_bits (SWC.pf p)) 0) as [Hneg|Hpos].
  - rewrite Z.pow_neg_r in Hrs by lia. lia.
  - apply Z.pow_pos_nonneg; lia.
Qed.

(** The position after [k] advancements from position 0. *)
Lemma swc_position_after (k : nat) (e : SWC.engine p) :
  SWC.i_ e = 0 -> Z.of_nat k < 2 ^ size_bits (SWC.pf p) ->
  SWC.i_ (eng_discard k e) = Z.of_nat k.
Proof.
  intros H0. induction k as [|k IH]; intros Hk; [exact H0|].
  rewrite eng_discard_succ.
  change (@eng_next (SWC.engine p) _) with (SWC.next (p:=p)).
  unfold SWC.next. cbn [snd SWC.i_]. rewrite IH by lia.
  rewrite wrap_small by lia. lia.
Qed.

(** The buffers remember the last [r] values and carries of the stream. *)
Lemma swc_history (e : SWC.engine p) (k j : nat) :
  swc_state e -> SWC.i_ e = 0 ->
  Z.of_nat k <= 2 ^ size_bits (SWC.pf p) ->
  (j < k)%nat -> Z.of_nat k <= Z.of_nat j + SWC.r p ->
  aget (SWC.X_ (eng_discard k e)) (Z.of_nat j mod SWC.r p) = output_at e j /\
  aget (SWC.cy_ (eng_discard k e)) (Z.of_nat j mod SWC.r p)
  = SWC.carry_of (p:=p) (swc_raw e j).
Proof.
  pose proof Hvalid as (Hw & Hs & Hsr & Hrb & Hrs).
  intros He H0. revert j. induction k as [|k IH]; intros j Hk Hjk Hkr; [lia|].
  pose proof (swc_state_after k e He) as (HX & Hcy & _).
  pose proof (swc_position_after k e H0 ltac:(lia)) as Hpos.
  pose proof (Z.mod_pos_bound (Z.of_nat k) (SWC.r p) ltac:(lia)) as Hkm.
  pose proof (Z.mod_pos_bound (Z.of_nat j) (SWC.r p) ltac:(lia)) as Hjm.
  rewrite eng_discard_succ.
  change (@eng_next (SWC.engine p) _) with (SWC.next (p:=p)).
  unfold SWC.next. cbn [snd SWC.X_ SWC.cy_]. rewrite Hpos.
  destruct (Nat.eq_dec j k) as [->|Hne].
  - rewrite !aget_aset_eq by lia.
    unfold output_at, swc_raw.
    change (@eng_next (SWC.engine p) _) with (SWC.next (p:=p)).
    unfold SWC.next. cbn [fst]. cbn zeta. rewrite Hpos.
    split; reflexivity.
  - assert (Hmod : Z.of_nat k mod SWC.r p <> Z.of_nat j mod SWC.r p).
    { intros Heq. symmetry in Heq. revert Heq.
      apply mod_differs_within_lag; lia. }
    rewrite !aget_aset_ne by lia.
    apply IH; lia.
Qed.
End SWCStream.

(** X9. For valid parameters every value a subtract_with_carry_engine
    returns is its raw difference reduced modulo [2 ^ r] and lies between
    [min()] and [max()], from any state. *)
Theorem swc_outputs_in_range (p : SWC.params) (e : SWC.engine p) (k : nat) :
  SWC.valid p ->
  output_at e k = swc_raw e k mod 2 ^ SWC.r p /\
  SWC.min (p:=p) <= output_at e k <= SWC.max (p:=p).
Proof.
  intros Hv. unfold output_at, swc_raw. cbn zeta.
  change (@eng_next (SWC.engine p) _) with (SWC.next (p:=p)).
  apply swc_next_output. exact Hv.
Qed.

Lemma swc_outputs_in_range_witness :
  let e := SWC.ctor (p:=ranlux48_base lp64) 7 in
  output_at e 20 = swc_raw e 20 mod 2 ^ 12 /\
  SWC.min (p:=ranlux48_base lp64) <= output_at e 20
    <= SWC.max (p:=ranlux48_base lp64).
Proof.
  intros e. apply (swc_outputs_in_range (ranlux48_base lp64) e 20).
  unfold SWC.valid. simpl. lia.
Defined.

(** X10. [seed(v)] on an engine whose buffers have their [r] slots
    overwrites the whole of [X_] with the first [r] values of minstd_rand
    constructed from [v], as the constructor from [v] does, keeps the
    sizes of the buffers and keeps the position [i_]. *)
Theorem swc_seed_fills_X (p : SWC.params) (v : Z) (e : SWC.engine p) :
  SWC.valid p -> swc_state e ->
  SWC.X_ (SWC.seed v e)
  = map (wrap (SWC.bits p))
        (fst (outputs (Z.to_nat (SWC.r p))
                (LCG.ctor (p:=minstd_rand (SWC.pf p))
                          (wrap (fast32_bits (SWC.pf p)) v)))) /\
  SWC.X_ (SWC.seed v e) = SWC.X_ (SWC.ctor (p:=p) v) /\
  SWC.i_ (SWC.seed v e) = SWC.i_ e /\
  swc_state (SWC.seed v e).
Proof.
  intros Hv (HX & Hcy & Hi).
  assert (Hz : length (SWC.X_ (SWC.Engine_ (p:=p) (SWC.zeros (p:=p))
                                 (SWC.zeros (p:=p)) 0))
               = Z.to_nat (SWC.r p))
    by (cbn [SWC.X_]; unfold SWC.zeros; apply length_replicate).
  split; [apply swc_seed_X; exact HX|].
  split; [unfold SWC.ctor; rewrite (swc_seed_X p v e HX),
            (swc_seed_X p v _ Hz); reflexivity|].
  split; [apply swc_seed_keeps_position|].
  unfold SWC.seed, swc_state.
  pose proof (swc_seed_loop_lengths p (Z.to_nat (SWC.r p)) 0
                (LCG.ctor (wrap (fast32_bits (SWC.pf p)) v))
                (SWC.X_ e) (SWC.cy_ e)) as [HX' Hcy'].
  destruct (SWC.seed_loop _ _ _ _ _) as [X cy]. cbn [fst snd] in *.
  cbn [SWC.X_ SWC.cy_ SWC.i_]. rewrite HX', Hcy'. auto.
Qed.

Lemma swc_seed_fills_X_witness :
  let e := snd (SWC.next (SWC.ctor (p:=ranlux24_base avr) 3)) in
  SWC.X_ (SWC.seed 1 e) = SWC.X_ (SWC.ctor (p:=ranlux24_base avr) 1) /\
  SWC.i_ (SWC.seed 1 e) = SWC.i_ e.
Proof.
  intros e.
  assert (Hv : SWC.valid (ranlux24_base avr))
    by (unfold SWC.valid; simpl; lia).
  assert (He : swc_state e).
  { apply (swc_next_state _ Hv). apply (swc_ctor_state _ Hv). }
  pose proof (swc_seed_fills_X (ranlux24_base avr) 1 e Hv He)
    as (_ & HX & Hi & _).
  split; [exact HX | exact Hi].
Defined.

(** X11. Every entry of the carry buffer of a constructed
    subtract_with_carry_engine is 0 or 1, after any number of
    advancements and after reseeding. *)
Theorem swc_carries_are_bits (p : SWC.params) (v v' : Z) (k : nat) :
  Forall is_bit (SWC.cy_ (eng_discard k (SWC.ctor (p:=p) v))) /\
  Forall is_bit
    (SWC.cy_ (SWC.seed v' (eng_discard k (SWC.ctor (p:=p) v)))).
Proof.
  assert (Hseed : forall (u : Z) (e : SWC.engine p),
             Forall is_bit (SWC.cy_ e) ->
             Forall is_bit (SWC.cy_ (SWC.seed u e))).
  { intros u e He. unfold SWC.seed.
    pose proof (swc_seed_loop_carries p (Z.to_nat (SWC.r p)) 0
                  (LCG.ctor (wrap (fast32_bits (SWC.pf p)) u))
                  (SWC.X_ e) (SWC.cy_ e) He) as Hl.
    destruct (SWC.seed_loop _ _ _ _ _) as [X cy]. exact Hl. }
  assert (Hctor : Forall is_bit (SWC.cy_ (SWC.ctor (p:=p) v))).
  { unfold SWC.ctor. apply Hseed. cbn [SWC.cy_]. unfold SWC.zeros.
    apply Forall_replicate. left. reflexivity. }
  assert (Hsteps : forall (j : nat) (e : SWC.engine p),
             Forall is_bit (SWC.cy_ e) ->
             Forall is_bit (SWC.cy_ (eng_discard j e))).
  { induction j as [|j IH]; intros e He; [exact He|].
    change (eng_discard (S j) e) with (eng_discard j (snd (SWC.next e))).
    apply IH. unfold SWC.next. cbn [snd SWC.cy_]. unfold aset.
    apply Forall_insert; [exact He | apply carry_of_is_bit]. }
  split; [|apply Hseed]; apply Hsteps; exact Hctor.
Qed.

(** X12. The stream of an engine that starts at position 0 follows the
    lagged recurrence from the [r]-th value on, as long as the size_t
    position has not wrapped: the raw value number [k] is the value
    number [k - s] minus the value number [k - r] minus the carry of the
    raw value number [k - 1], computed in UIntType, and the value is the
    raw value modulo [2 ^ r]. *)
Theorem swc_lagged_recurrence (p : SWC.params) (e : SWC.engine p) (k : nat) :
  SWC.valid p -> swc_state e -> SWC.i_ e = 0 ->
  SWC.r p <= Z.of_nat k -> Z.of_nat k < 2 ^ size_bits (SWC.pf p) ->
  swc_raw e k
  = wrap (SWC.bits p)
      (output_at e (k - Z.to_nat (SWC.s p))
       - output_at e (k - Z.to_nat (SWC.r p))
       - SWC.carry_of (p:=p) (swc_raw e (k - 1))) /\
  output_at e k = swc_raw e k mod 2 ^ SWC.r p.
Proof.
  intros Hv He H0 Hrk Hk. pose proof Hv as (Hw & Hs & Hsr & Hrb & Hrs).
  split; [|unfold output_at, swc_raw; cbn zeta;
            change (@eng_next (SWC.engine p) _) with (SWC.next (p:=p));
            apply (swc_next_output p Hv)].
  unfold swc_raw at 1. cbn zeta.
  rewrite (swc_position_after p k e H0 Hk). unfold SWC.sN.
  rewrite (wrap_small _ (Z.of_nat k - SWC.s p)) by lia.
  rewrite (wrap_small _ (Z.of_nat k - SWC.r p)) by lia.
  rewrite (wrap_small _ (Z.of_nat k - 1)) by lia.
  replace (Z.of_nat k - SWC.s p)
    with (Z.of_nat (k - Z.to_nat (SWC.s p))) by lia.
  replace (Z.of_nat k - SWC.r p)
    with (Z.of_nat (k - Z.to_nat (SWC.r p))) by lia.
  replace (Z.of_nat k - 1) with (Z.of_nat (k - 1)) by lia.
  destruct (swc_history p Hv e k (k - Z.to_nat (SWC.s p)) He H0)
    as [-> _]; try lia.
  destruct (swc_history p Hv e k (k - Z.to_nat (SWC.r p)) He H0)
    as [-> _]; try lia.
  destruct (swc_history p Hv e k (k - 1) He H0) as [_ ->]; lia.
Qed.

Lemma swc_lagged_recurrence_witness :
  let e := SWC.ctor (p:=ranlux24_base avr) SWC.default_seed in
  swc_raw e 30
  = wrap 32 (output_at e 20 - output_at e 6
             - SWC.carry_of (p:=ranlux24_base avr) (swc_raw e 29)) /\
  output_at e 30 = swc_raw e 30 mod 2 ^ 24.
Proof.
  intros e.
  assert (Hv : SWC.valid (ranlux24_base avr))
    by (unfold SWC.valid; simpl; lia).
  apply (swc_lagged_recurrence (ranlux24_base avr) e 30 Hv).
  - apply (swc_ctor_state _ Hv).
  - apply swc_seed_keeps_position.
  - simpl. lia.
  - vm_compute. reflexivity.
Defined.

(** ** discard_block_engine: bounds and counter *)

(** X13. If every value of the base engine lies between its [min()] and
    [max()], so does every value of the adaptor, from any state and for
    any block parameters. *)
Theorem dbe_outputs_in_range {E : Type} `{Engine E} (p : DBE.params)
    (d : DBE.engine E p) (k : nat) :
  (forall e : E, eng_min E <= fst (eng_next e) <= eng_max E) ->
  DBE.min (E:=E) <= output_at d k <= DBE.max (E:=E).
Proof.
  intros Hbase. unfold output_at.
  change (@eng_next (DBE.engine E p) _) with (DBE.next (E:=E) (p:=p)).
  apply dbe_next_range. exact Hbase.
Qed.

Lemma dbe_outputs_in_range_witness :
  let d : DBE.engine (LCG.engine (minstd_rand avr)) thinned_minstd :=
    DBE.ctor 1 in
  DBE.min (E:=LCG.engine (minstd_rand avr)) <= output_at d 12
    <= DBE.max (E:=LCG.engine (minstd_rand avr)).
Proof.
  intros d. apply (dbe_outputs_in_range thinned_minstd d 12).
  intros e. apply (lcg_next_range (minstd_rand avr) e).
  unfold LCG.valid. simpl. lia.
Defined.

(** X14. With [0 < R <= P] and [P] a size_t, the use counter of an
    adaptor that starts within [0, R] lies within [1, R] after every
    advancement. *)
Theorem dbe_counter_bounded {E : Type} `{Engine E} (p : DBE.params)
    (d : DBE.engine E p) (k : nat) :
  0 < DBE.R p -> DBE.R p <= DBE.P p -> DBE.P p < 2 ^ size_bits (DBE.pf p) ->
  0 <= DBE.n_ d <= DBE.R p ->
  1 <= DBE.n_ (eng_discard (S k) d) <= DBE.R p.
Proof.
  intros HR HRP HP.
  assert (Hstep : forall d0 : DBE.engine E p,
             0 <= DBE.n_ d0 <= DBE.R p ->
             1 <= DBE.n_ (snd (DBE.next d0)) <= DBE.R p).
  { intros [e n] Hn. cbn [DBE.n_] in Hn.
    destruct (Z.lt_ge_cases n (DBE.R p)) as [Hlt|Hge].
    - rewrite (dbe_next_used p HR HRP HP) by lia. cbn [snd DBE.n_]. lia.
    - rewrite (dbe_next_exhausted p HR HRP HP) by lia. cbn [snd DBE.n_]. lia. }
  revert d. induction k as [|k IH]; intros d Hd.
  - apply Hstep. exact Hd.
  - change (eng_discard (S (S k)) d)
      with (eng_discard (S k) (snd (DBE.next d))).
    apply IH. pose proof (Hstep d Hd). lia.
Qed.

Lemma dbe_counter_bounded_witness :
  let d : ranlux48 lp64 := DBE.ctor 3 in
  1 <= DBE.n_ (eng_discard 40 d) <= 11.
Proof.
  intros d. apply (dbe_counter_bounded (ranlux48_params lp64) d 39).
  - simpl. lia.
  - simpl. lia.
  - vm_compute. reflexivity.
  - simpl. lia.
Defined.

(** ** Every engine: how [discard] composes *)

(** X15. In every engine [discard(a)] followed by [discard(b)] leaves the
    state that [discard(a + b)] leaves, and the first [a + b] values are
    the first [a] values followed by the first [b] values of the engine
    that [discard(a)] leaves. *)
Theorem discard_composes {E : Type} `{Engine E} (a b : nat) (e : E) :
  eng_discard b (eng_discard a e) = eng_discard (a + b) e /\
  fst (outputs (a + b) e)
  = fst (outputs a e) ++ fst (outputs b (eng_discard a e)) /\
  snd (outputs (a + b) e) = eng_discard (a + b) e.
Proof.
  split; [symmetry; apply eng_discard_add|].
  split; [|apply outputs_snd].
  revert e. induction a as [|a IH]; intros e; [reflexivity|].
  cbn [Nat.add outputs eng_discard].
  specialize (IH (snd (eng_next e))).
  destruct (eng_next e) as [x e']. cbn [snd] in IH.
  destruct (outputs (a + b) e') as [xs e1].
  destruct (outputs a e') as [ys e2]. cbn [fst] in *.
  rewrite IH. reflexivity.
Qed.

(** * Properties of the sequencer *)

Section SequencerFacts.
Context {T : Type} `{Timer T} {Cmd Cb : Type}.

Local Abbreviation sequencer := (Sequencer.sequencer T Cmd Cb).
Local Abbreviation Event := (Sequencer.Event Cmd).

Lemma seq_deref_on_event (s : sequencer) :
  Sequencer.on_event s ->
  exists ev : Event,
    Sequencer.events_ s !! Z.to_nat (Sequencer.current_ s) = Some ev /\
    Sequencer.deref s = Some (ev, s, []).
Proof.
  unfold Sequencer.on_event, Sequencer.size, Sequencer.deref. intros Hc.
  destruct (Z.leb_spec 0 (Sequencer.current_ s)) as [_|Hn]; [|lia].
  destruct (Sequencer.events_ s !! Z.to_nat (Sequencer.current_ s))
    as [ev|] eqn:Hev.
  - exists ev. split; reflexivity.
  - apply lookup_ge_None in Hev. lia.
Qed.

Lemma seq_callback_on_event (s : sequencer) (ev : Event)
    (st : Sequencer.State) :
  Sequencer.deref s = Some (ev, s, []) ->
  Sequencer.callback st s
  = Some (tt, s, Sequencer.callback_actions (Sequencer.callback_ s) ev st).
Proof.
  intros Hd. unfold Sequencer.callback, Sequencer.bind, Sequencer.get.
  destruct (Sequencer.callback_ s) as [cb|]; [|reflexivity].
  rewrite Hd. reflexivity.
Qed.

Lemma seq_begin_on_event (s : sequencer) (ev : Event) :
  Sequencer.deref s = Some (ev, s, []) ->
  Sequencer.begin s
  = Some (tt,
          Sequencer.with_timer
            (t_set_interval (Sequencer.duration_ ev)
                            (Sequencer.event_timer_ s)) s,
          Sequencer.command_actions ev
            ++ Sequencer.callback_actions (Sequencer.callback_ s) ev
                 Sequencer.Begin).
Proof.
  intros Hd.
  assert (Hd1 : forall t, Sequencer.deref (Sequencer.with_timer t s)
                          = Some (ev, Sequencer.with_timer t s, [])).
  { intros t. unfold Sequencer.deref in *. cbn.
    destruct (0 <=? Sequencer.current_ s); [|discriminate].
    destruct (Sequencer.events_ s !! _); [|discriminate].
    congruence. }
  unfold Sequencer.begin, Sequencer.bind, Sequencer.on_timer,
    Sequencer.modify, Sequencer.command_actions.
  rewrite Hd.
  destruct (Sequencer.command_ ev) as [c|]; unfold Sequencer.emit, Sequencer.ret;
    rewrite (seq_callback_on_event _ ev Sequencer.Begin (Hd1 _));
    reflexivity.
Qed.

Lemma seq_next_spec (s : sequencer) :
  Sequencer.on_event s ->
  exists ev : Event,
    Sequencer.events_ s !! Z.to_nat (Sequencer.following s) = Some ev /\
    Sequencer.next s
    = Some (tt,
            Sequencer.Sequencer_ (Sequencer.events_ s) (Sequencer.following s)
              (Sequencer.callback_ s) (Sequencer.wrap_ s) (Sequencer.done_ s)
              true
              (t_reset (t_set_interval (Sequencer.duration_ ev)
                                       (Sequencer.event_timer_ s))),
            []).
Proof.
  intros Hc. unfold Sequencer.on_event, Sequencer.size in Hc.
  assert (Hf : 0 <= Sequencer.following s
               < Z.of_nat (length (Sequencer.events_ s))).
  { unfold Sequencer.following, Sequencer.size.
    destruct (Z.eqb_spec (Sequencer.current_ s + 1)
                (Z.of_nat (length (Sequencer.events_ s)))); lia. }
  destruct (Sequencer.events_ s !! Z.to_nat (Sequencer.following s))
    as [ev|] eqn:Hev; [|apply lookup_ge_None in Hev; lia].
  exists ev. split; [reflexivity|].
  unfold Sequencer.next, Sequencer.bind, Sequencer.modify, Sequencer.get,
    Sequencer.on_timer, Sequencer.ret, Sequencer.deref.
  unfold Sequencer.following in *. cbn.
  unfold Sequencer.size in *. cbn.
  destruct (Z.eqb_spec (Sequencer.current_ s + 1)
              (Z.of_nat (length (Sequencer.events_ s)))) as [He|He]; cbn.
  - cbn in Hev. rewrite Hev. reflexivity.
  - destruct (Z.leb_spec 0 (Sequencer.current_ s + 1)) as [_|Hn]; [|lia].
    rewrite Hev. reflexivity.
Qed.

Lemma seq_prev_spec (s : sequencer) :
  Sequencer.on_event s ->
  exists ev : Event,
    Sequencer.events_ s !! Z.to_nat (Sequencer.preceding s) = Some ev /\
    Sequencer.prev s
    = Some (tt,
            Sequencer.Sequencer_ (Sequencer.events_ s) (Sequencer.preceding s)
              (Sequencer.callback_ s) (Sequencer.wrap_ s) (Sequencer.done_ s)
              true
              (t_reset (t_set_interval (Sequencer.duration_ ev)
                                       (Sequencer.event_timer_ s))),
            []).
Proof.
  intros Hc. unfold Sequencer.on_event, Sequencer.size in Hc.
  assert (Hf : 0 <= Sequencer.preceding s
               < Z.of_nat (length (Sequencer.events_ s))).
  { unfold Sequencer.preceding, Sequencer.size.
    destruct (Z.eqb_spec (Sequencer.current_ s) 0); lia. }
  destruct (Sequencer.events_ s !! Z.to_nat (Sequencer.preceding s))
    as [ev|] eqn:Hev; [|apply lookup_ge_None in Hev; lia].
  exists ev. split; [reflexivity|].
  unfold Sequencer.prev, Sequencer.bind, Sequencer.modify, Sequencer.get,
    Sequencer.on_timer, Sequencer.ret, Sequencer.deref.
  unfold Sequencer.preceding in *. unfold Sequencer.size in *.
  destruct (Z.eqb_spec (Sequencer.current_ s) 0) as [He|He]; cbn.
  - destruct (Z.leb_spec 0 (Z.of_nat (length (Sequencer.events_ s)) - 1))
      as [_|Hn]; [|lia].
    rewrite Hev. reflexivity.
  - destruct (Z.leb_spec 0 (Sequencer.current_ s - 1)) as [_|Hn]; [|lia].
    rewrite Hev. reflexivity.
Qed.

Lemma seq_advance_spec (s : sequencer) :
  Sequencer.on_event s ->
  Sequencer.advance s
  = Some (tt,
          (if Sequencer.current_ s + 1 =? Sequencer.size s
           then if Sequencer.wrap_ s
                then Sequencer.with_current 0 s
                else Sequencer.with_done true
                       (Sequencer.with_timer
                          (t_stop (Sequencer.event_timer_ s)) s)
           else Sequencer.with_current (Sequencer.current_ s + 1) s),
          []).
Proof.
  intros Hc.
  unfold Sequencer.advance, Sequencer.bind, Sequencer.modify, Sequencer.get,
    Sequencer.stop, Sequencer.on_timer, Sequencer.ret.
  cbn. unfold Sequencer.size. cbn.
  destruct (Sequencer.current_ s + 1
            =? Z.of_nat (length (Sequencer.events_ s))); [|reflexivity].
  destruct (Sequencer.wrap_ s); [reflexivity|]. cbn.
  unfold Sequencer.with_done, Sequencer.with_timer. cbn.
  rewrite Z.add_simpl_r. reflexivity.
Qed.

(** The member functions that keep the iterator on an event. *)

Lemma koe_bind {A B : Type} (m : Sequencer.M A) (f : A -> Sequencer.M B) :
  Sequencer.keeps_on_event (T:=T) (Cmd:=Cmd) (Cb:=Cb) m ->
  (forall a, Sequencer.keeps_on_event (f a)) ->
  Sequencer.keeps_on_event (Sequencer.bind m f).
Proof.
  intros Hm Hf s Hs. destruct (Hm s Hs) as (a & s1 & t1 & E1 & H1 & Hev1).
  destruct (Hf a s1 H1) as (b & s2 & t2 & E2 & H2 & Hev2).
  exists b, s2, (t1 ++ t2). unfold Sequencer.bind. rewrite E1, E2.
  split; [reflexivity|]. split; [exact H2 | congruence].
Qed.

Lemma koe_pure {A : Type} (a : A) (tr : list (Sequencer.action Cmd Cb)) :
  Sequencer.keeps_on_event (T:=T) (fun s => Some (a, s, tr)).
Proof. intros s Hs. exists a, s, tr. auto. Qed.

Lemma koe_get : Sequencer.keeps_on_event (T:=T) (Cmd:=Cmd) (Cb:=Cb) Sequencer.get.
Proof. intros s Hs. exists s, s, []. auto. Qed.

Lemma koe_modify (f : sequencer -> sequencer) :
  (forall s, Sequencer.on_event s ->
     Sequencer.on_event (f s) /\ Sequencer.events_ (f s) = Sequencer.events_ s) ->
  Sequencer.keeps_on_event (Sequencer.modify f).
Proof.
  intros Hf s Hs. destruct (Hf s Hs) as [H1 H2].
  exists tt, (f s), []. auto.
Qed.

Lemma koe_on_timer (f : T -> T) :
  Sequencer.keeps_on_event (Cmd:=Cmd) (Cb:=Cb) (Sequencer.on_timer f).
Proof. apply koe_modify. intros s Hs. split; [exact Hs | reflexivity]. Qed.

Lemma koe_deref : Sequencer.keeps_on_event (T:=T) (Cmd:=Cmd) (Cb:=Cb) Sequencer.deref.
Proof.
  intros s Hs. destruct (seq_deref_on_event s Hs) as (ev & _ & Hd).
  exists ev, s, []. auto.
Qed.

Lemma koe_callback (st : Sequencer.State) :
  Sequencer.keeps_on_event (T:=T) (Cmd:=Cmd) (Cb:=Cb) (Sequencer.callback st).
Proof.
  intros s Hs. destruct (seq_deref_on_event s Hs) as (ev & _ & Hd).
  rewrite (seq_callback_on_event s ev st Hd). eexists _, _, _. auto.
Qed.

Lemma koe_begin :
  Sequencer.keeps_on_event (T:=T) (Cmd:=Cmd) (Cb:=Cb) Sequencer.begin.
Proof.
  intros s Hs. destruct (seq_deref_on_event s Hs) as (ev & _ & Hd).
  rewrite (seq_begin_on_event s ev Hd). eexists _, _, _.
  split; [reflexivity|]. split; [exact Hs | reflexivity].
Qed.

Lemma koe_rewind :
  Sequencer.keeps_on_event (T:=T) (Cmd:=Cmd) (Cb:=Cb) Sequencer.rewind.
Proof.
  unfold Sequencer.rewind. apply koe_bind; [|intros _]; apply koe_modify;
    intros s Hs; (split; [|reflexivity]);
    unfold Sequencer.on_event, Sequencer.size in *; cbn; lia.
Qed.

Lemma koe_advance :
  Sequencer.keeps_on_event (T:=T) (Cmd:=Cmd) (Cb:=Cb) Sequencer.advance.
Proof.
  intros s Hs. rewrite (seq_advance_spec s Hs). eexists _, _, _.
  split; [reflexivity|].
  unfold Sequencer.on_event, Sequencer.size in *.
  destruct (Z.eqb_spec (Sequencer.current_ s + 1)
              (Z.of_nat (length (Sequencer.events_ s)))) as [He|He];
    [destruct (Sequencer.wrap_ s)|]; cbn; split; first [lia | reflexivity].
Qed.

Lemma koe_start :
  Sequencer.keeps_on_event (T:=T) (Cmd:=Cmd) (Cb:=Cb) Sequencer.start.
Proof.
  unfold Sequencer.start. apply koe_bind; [apply koe_get|]. intros s.
  destruct (Sequencer.is_active s); [apply koe_pure|].
  apply koe_bind; [apply koe_rewind|]. intros _.
  apply koe_bind; [apply koe_begin|]. intros _. apply koe_on_timer.
Qed.

(** X16. With the iterator on an event, [next()] moves it to the
    following event and [prev()] to the preceding one, cyclically, and
    neither performs an action; [prev()] after [next()] and [next()]
    after [prev()] bring the iterator back; both set [exec_]. *)
Theorem sequencer_next_prev_inverse (s : sequencer) :
  Sequencer.on_event s ->
  exists s1 s1' s2 s2',
    Sequencer.next s = Some (tt, s1, []) /\
    Sequencer.prev s1 = Some (tt, s1', []) /\
    Sequencer.prev s = Some (tt, s2, []) /\
    Sequencer.next s2 = Some (tt, s2', []) /\
    Sequencer.current_ s1 = (Sequencer.current_ s + 1) mod Sequencer.size s /\
    Sequencer.current_ s2 = (Sequencer.current_ s - 1) mod Sequencer.size s /\
    Sequencer.current_ s1' = Sequencer.current_ s /\
    Sequencer.current_ s2' = Sequencer.current_ s /\
    Sequencer.exec_ s1 = true /\ Sequencer.exec_ s2 = true.
Proof.
  intros Hs. pose proof Hs as Hc.
  unfold Sequencer.on_event, Sequencer.size in Hc.
  destruct (seq_next_spec s Hs) as (ev1 & _ & E1).
  destruct (seq_prev_spec s Hs) as (ev2 & _ & E2).
  set (n := Z.of_nat (length (Sequencer.events_ s))) in *.
  assert (Hf : Sequencer.following s = (Sequencer.current_ s + 1) mod n /\
               0 <= Sequencer.following s < n).
  { unfold Sequencer.following, Sequencer.size. fold n.
    destruct (Z.eqb_spec (Sequencer.current_ s + 1) n) as [He|He].
    - rewrite He, Z.mod_same by lia. lia.
    - rewrite Z.mod_small by lia. lia. }
  assert (Hp : Sequencer.preceding s = (Sequencer.current_ s - 1) mod n /\
               0 <= Sequencer.preceding s < n).
  { unfold Sequencer.preceding, Sequencer.size. fold n.
    destruct (Z.eqb_spec (Sequencer.current_ s) 0) as [He|He].
    - rewrite He. replace (0 - 1) with (n - 1 + (-1) * n) by lia.
      rewrite Z.mod_add, Z.mod_small by lia. lia.
    - rewrite Z.mod_small by lia. lia. }
  match type of E1 with _ = Some (_, ?x, _) => set (s1 := x) in * end.
  match type of E2 with _ = Some (_, ?x, _) => set (s2 := x) in * end.
  assert (Hs1 : Sequencer.on_event s1)
    by (unfold Sequencer.on_event, Sequencer.size; subst s1; cbn; fold n; lia).
  assert (Hs2 : Sequencer.on_event s2)
    by (unfold Sequencer.on_event, Sequencer.size; subst s2; cbn; fold n; lia).
  destruct (seq_prev_spec s1 Hs1) as (ev3 & _ & E3).
  destruct (seq_next_spec s2 Hs2) as (ev4 & _ & E4).
  eexists s1, _, s2, _.
  split; [exact E1|]. split; [exact E3|]. split; [exact E2|].
  split; [exact E4|]. cbn.
  split; [apply Hf|]. split; [apply Hp|].
  split; [|split; [|split; reflexivity]].
  - unfold Sequencer.preceding, Sequencer.size. subst s1. cbn. fold n.
    unfold Sequencer.following, Sequencer.size. fold n.
    destruct (Z.eqb_spec (Sequencer.current_ s + 1) n) as [He|He].
    + cbn. lia.
    + destruct (Z.eqb_spec (Sequencer.current_ s + 1) 0); lia.
  - unfold Sequencer.following, Sequencer.size. subst s2. cbn. fold n.
    unfold Sequencer.preceding, Sequencer.size. fold n.
    destruct (Z.eqb_spec (Sequencer.current_ s) 0) as [He|He].
    + destruct (Z.eqb_spec (n - 1 + 1) n); lia.
    + destruct (Z.eqb_spec (Sequencer.current_ s - 1 + 1) n); lia.
Qed.

(** X17. Called with the iterator on an event, each of [start()],
    [stop()], [reset()], [resume()], [next()], [prev()] and [tick()]
    returns without dereferencing outside the sequence, leaves the
    iterator on an event and leaves the sequence as it is, whatever the
    timer does. *)
Theorem sequencer_operations_stay_on_event :
  Sequencer.keeps_on_event (T:=T) (Cmd:=Cmd) (Cb:=Cb) Sequencer.start /\
  Sequencer.keeps_on_event (T:=T) (Cmd:=Cmd) (Cb:=Cb) Sequencer.stop /\
  Sequencer.keeps_on_event (T:=T) (Cmd:=Cmd) (Cb:=Cb) Sequencer.reset /\
  Sequencer.keeps_on_event (T:=T) (Cmd:=Cmd) (Cb:=Cb) Sequencer.resume /\
  Sequencer.keeps_on_event (T:=T) (Cmd:=Cmd) (Cb:=Cb) Sequencer.next /\
  Sequencer.keeps_on_event (T:=T) (Cmd:=Cmd) (Cb:=Cb) Sequencer.prev /\
  Sequencer.keeps_on_event (T:=T) (Cmd:=Cmd) (Cb:=Cb) Sequencer.tick.
Proof.
  repeat apply conj.
  - apply koe_start.
  - apply koe_on_timer.
  - unfold Sequencer.reset. apply koe_bind; [apply koe_rewind|]. intros _.
    apply koe_bind; [apply koe_get|]. intros s.
    destruct (Sequencer.is_active s); [|apply koe_on_timer].
    apply koe_bind; [apply koe_on_timer|]. intros _. apply koe_begin.
  - unfold Sequencer.resume. apply koe_bind; [apply koe_get|]. intros s.
    destruct (Sequencer.is_idle s); [|apply koe_pure].
    destruct (_ =? _); [apply koe_start|].
    apply koe_bind; [|intros _; apply koe_on_timer].
    destruct (Sequencer.exec_ s); [|apply koe_pure].
    apply koe_bind; [apply koe_begin|]. intros _.
    apply koe_modify. intros s0 Hs0. split; [exact Hs0 | reflexivity].
  - intros s Hs. destruct (seq_next_spec s Hs) as (ev & Hev & E).
    rewrite E. eexists _, _, _. split; [reflexivity|].
    split; [|reflexivity]. apply lookup_lt_Some in Hev.
    unfold Sequencer.on_event, Sequencer.following, Sequencer.size in *.
    cbn [Sequencer.current_ Sequencer.events_].
    destruct (Z.eqb_spec (Sequencer.current_ s + 1)
                (Z.of_nat (length (Sequencer.events_ s)))); lia.
  - intros s Hs. destruct (seq_prev_spec s Hs) as (ev & Hev & E).
    rewrite E. eexists _, _, _. split; [reflexivity|].
    split; [|reflexivity]. apply lookup_lt_Some in Hev.
    unfold Sequencer.on_event, Sequencer.preceding, Sequencer.size in *.
    cbn [Sequencer.current_ Sequencer.events_].
    destruct (Z.eqb_spec (Sequencer.current_ s) 0); lia.
  - unfold Sequencer.tick. apply koe_bind; [apply koe_get|]. intros s.
    destruct (t_expired _); [|apply koe_pure].
    apply koe_bind; [apply koe_callback|]. intros _.
    apply koe_bind; [apply koe_advance|]. intros _.
    apply koe_bind; [apply koe_get|]. intros s'.
    destruct (Sequencer.is_active s'); [apply koe_begin | apply koe_pure].
Qed.
End SequencerFacts.

Lemma sequencer_next_prev_inverse_witness :
  exists s1 s1' s2 s2',
    Sequencer.next Sample.two_event_sequencer = Some (tt, s1, []) /\
    Sequencer.prev s1 = Some (tt, s1', []) /\
    Sequencer.prev Sample.two_event_sequencer = Some (tt, s2, []) /\
    Sequencer.next s2 = Some (tt, s2', []) /\
    Sequencer.current_ s1 = (0 + 1) mod 2 /\
    Sequencer.current_ s2 = (0 - 1) mod 2 /\
    Sequencer.current_ s1' = 0 /\
    Sequencer.current_ s2' = 0 /\
    Sequencer.exec_ s1 = true /\ Sequencer.exec_ s2 = true.
Proof.
  apply (sequencer_next_prev_inverse Sample.two_event_sequencer).
  unfold Sequencer.on_event.
  split; vm_compute; [intros H0; discriminate H0 | reflexivity].
Defined.

Section SequencerRuns.
Context {T : Type} `{Timer T} {Cmd Cb : Type}.

Local Abbreviation sequencer := (Sequencer.sequencer T Cmd Cb).
Local Abbreviation Event := (Sequencer.Event Cmd).

(** X18. With the iterator on an event, [index()] is the position of the
    event counted from 1 when the sequence has at most 255 events; it is
    a uint8_t in any case. *)
Theorem sequencer_index_counts_from_one (s : sequencer) :
  Sequencer.on_event s ->
  0 <= Sequencer.index s <= 255 /\
  (Sequencer.size s <= 255 ->
   Sequencer.index s = Sequencer.current_ s + 1 /\
   1 <= Sequencer.index s <= Sequencer.size s) /\
  (Sequencer.current_ s = 255 -> Sequencer.index s = 0).
Proof.
  unfold Sequencer.on_event, Sequencer.index. intros Hs.
  pose proof (Z.mod_pos_bound (Sequencer.current_ s + 1) 256 ltac:(lia)).
  split; [lia|]. split.
  - intros Hn. rewrite Z.mod_small by lia. lia.
  - intros ->. reflexivity.
Qed.

(** X19. When the timer has expired and is active and the sequence goes
    on (the current event is not the last one, or the sequence wraps
    around), [tick()] calls the callback for the end of the current event,
    moves to the following event, sets the timer interval to its duration,
    executes its command if it has one and calls the callback for its
    beginning, in this order. *)
Theorem sequencer_tick_moves_on (s : sequencer) :
  Sequencer.on_event s ->
  t_expired (Sequencer.event_timer_ s) = true ->
  t_active (Sequencer.event_timer_ s) = true ->
  Sequencer.current_ s + 1 < Sequencer.size s \/ Sequencer.wrap_ s = true ->
  exists ev ev' : Event,
    Sequencer.events_ s !! Z.to_nat (Sequencer.current_ s) = Some ev /\
    Sequencer.events_ s !! Z.to_nat (Sequencer.following s) = Some ev' /\
    Sequencer.tick s
    = Some (tt,
            Sequencer.with_timer
              (t_set_interval (Sequencer.duration_ ev')
                              (Sequencer.event_timer_ s))
              (Sequencer.with_current (Sequencer.following s) s),
            Sequencer.callback_actions (Sequencer.callback_ s) ev
                                       Sequencer.End
              ++ Sequencer.command_actions ev'
              ++ Sequencer.callback_actions (Sequencer.callback_ s) ev'
                                            Sequencer.Begin).
Proof.
  intros Hs Hexp Hact Hgo.
  destruct (seq_deref_on_event s Hs) as (ev & Hev & Hd).
  set (s1 := Sequencer.with_current (Sequencer.following s) s).
  assert (Hs1 : Sequencer.on_event s1).
  { unfold Sequencer.on_event, Sequencer.following, Sequencer.size in *.
    subst s1. cbn [Sequencer.with_current Sequencer.current_ Sequencer.events_].
    destruct (Z.eqb_spec (Sequencer.current_ s + 1)
                (Z.of_nat (length (Sequencer.events_ s)))); lia. }
  destruct (seq_deref_on_event s1 Hs1) as (ev' & Hev' & Hd').
  exists ev, ev'. split; [exact Hev|]. split; [exact Hev'|].
  unfold Sequencer.tick, Sequencer.bind at 1, Sequencer.get at 1.
  rewrite Hexp. unfold Sequencer.bind at 1, Sequencer.end_.
  rewrite (seq_callback_on_event s ev Sequencer.End Hd).
  unfold Sequencer.bind at 1. rewrite (seq_advance_spec s Hs).
  assert (Hadv : (if Sequencer.current_ s + 1 =? Sequencer.size s
                  then if Sequencer.wrap_ s
                       then Sequencer.with_current 0 s
                       else Sequencer.with_done true
                              (Sequencer.with_timer
                                 (t_stop (Sequencer.event_timer_ s)) s)
                  else Sequencer.with_current (Sequencer.current_ s + 1) s)
                 = s1).
  { subst s1. unfold Sequencer.following.
    destruct (Z.eqb_spec (Sequencer.current_ s + 1) (Sequencer.size s))
      as [He|He]; [|reflexivity].
    destruct Hgo as [Hlt|Hw]; [lia|]. rewrite Hw. reflexivity. }
  rewrite Hadv. unfold Sequencer.bind, Sequencer.get.
  assert (Ha1 : Sequencer.is_active s1 = true).
  { unfold Sequencer.is_active, Sequencer.status. subst s1. cbn.
    rewrite Hact. reflexivity. }
  rewrite Ha1. rewrite (seq_begin_on_event s1 ev' Hd').
  subst s1. cbn. rewrite ?app_nil_r. reflexivity.
Qed.

(** X20. When the timer has expired on the last event of a sequence that
    does not wrap around, [tick()] calls the callback for the end of the
    event, stops the timer, leaves the iterator on the last event and
    sets [done_]; if the stopped timer is not active, no event is begun
    and the status is [Done]. *)
Theorem sequencer_tick_finishes (s : sequencer) :
  Sequencer.on_event s ->
  t_expired (Sequencer.event_timer_ s) = true ->
  Sequencer.current_ s + 1 = Sequencer.size s ->
  Sequencer.wrap_ s = false ->
  t_active (t_stop (Sequencer.event_timer_ s)) = false ->
  exists ev : Event,
    Sequencer.events_ s !! Z.to_nat (Sequencer.current_ s) = Some ev /\
    Sequencer.tick s
    = Some (tt,
            Sequencer.with_done true
              (Sequencer.with_timer (t_stop (Sequencer.event_timer_ s)) s),
            Sequencer.callback_actions (Sequencer.callback_ s) ev
                                       Sequencer.End) /\
    Sequencer.status
      (Sequencer.with_done true
         (Sequencer.with_timer (t_stop (Sequencer.event_timer_ s)) s))
    = Sequencer.Done.
Proof.
  intros Hs Hexp Hlast Hw Hstop.
  destruct (seq_deref_on_event s Hs) as (ev & Hev & Hd).
  exists ev. split; [exact Hev|]. split.
  - unfold Sequencer.tick, Sequencer.bind at 1, Sequencer.get at 1.
    rewrite Hexp. unfold Sequencer.bind at 1, Sequencer.end_.
    rewrite (seq_callback_on_event s ev Sequencer.End Hd).
    unfold Sequencer.bind at 1. rewrite (seq_advance_spec s Hs).
    rewrite Hlast, Z.eqb_refl, Hw.
    unfold Sequencer.bind, Sequencer.get, Sequencer.is_active,
      Sequencer.status. cbn. rewrite Hstop. cbn.
    rewrite ?app_nil_r. reflexivity.
  - unfold Sequencer.status. cbn. rewrite Hstop. reflexivity.
Qed.

Lemma seq_start_inactive (s : sequencer) (ev : Event) :
  Sequencer.events_ s !! 0%nat = Some ev ->
  t_active (Sequencer.event_timer_ s) = false ->
  Sequencer.start s
  = Some (tt,
          Sequencer.Sequencer_ (Sequencer.events_ s) 0
            (Sequencer.callback_ s) (Sequencer.wrap_ s) false
            (Sequencer.exec_ s)
            (t_start (t_set_interval (Sequencer.duration_ ev)
                                     (Sequencer.event_timer_ s))),
          Sequencer.command_actions ev
            ++ Sequencer.callback_actions (Sequencer.callback_ s) ev
                                          Sequencer.Begin).
Proof.
  intros Hev Hact.
  assert (Hia : Sequencer.is_active s = false).
  { unfold Sequencer.is_active, Sequencer.status. rewrite Hact.
    destruct (Sequencer.done_ s); reflexivity. }
  set (s0 := Sequencer.with_done false (Sequencer.with_current 0 s)).
  assert (Hd : Sequencer.deref s0 = Some (ev, s0, [])).
  { unfold Sequencer.deref. subst s0.
    cbn [Sequencer.with_done Sequencer.with_current Sequencer.current_
         Sequencer.events_].
    change (Z.to_nat 0) with 0%nat. rewrite Hev. reflexivity. }
  unfold Sequencer.start, Sequencer.bind at 1, Sequencer.get at 1.
  rewrite Hia.
  unfold Sequencer.bind at 1, Sequencer.rewind, Sequencer.bind at 1,
    Sequencer.modify.
  fold s0. unfold Sequencer.bind at 1.
  rewrite (seq_begin_on_event s0 ev Hd).
  unfold Sequencer.on_timer, Sequencer.modify. subst s0. cbn.
  rewrite ?app_nil_r. reflexivity.
Qed.

(** X21. [start()] on a sequencer whose timer is active does nothing; on
    one whose timer is not active and that has events it rewinds to the
    first event, clears [done_], sets the timer interval to the duration
    of the first event, executes its command if it has one, calls the
    callback for its beginning and starts the timer. *)
Theorem sequencer_start_begins_first (s : sequencer) (ev : Event) :
  Sequencer.events_ s !! 0%nat = Some ev ->
  (t_active (Sequencer.event_timer_ s) = true ->
   Sequencer.start s = Some (tt, s, [])) /\
  (t_active (Sequencer.event_timer_ s) = false ->
   Sequencer.start s
   = Some (tt,
           Sequencer.Sequencer_ (Sequencer.events_ s) 0
             (Sequencer.callback_ s) (Sequencer.wrap_ s) false
             (Sequencer.exec_ s)
             (t_start (t_set_interval (Sequencer.duration_ ev)
                                      (Sequencer.event_timer_ s))),
           Sequencer.command_actions ev
             ++ Sequencer.callback_actions (Sequencer.callback_ s) ev
                                           Sequencer.Begin)).
Proof.
  intros Hev. split; intros Hact.
  - unfold Sequencer.start, Sequencer.bind, Sequencer.get,
      Sequencer.is_active, Sequencer.status. rewrite Hact. reflexivity.
  - apply seq_start_inactive; assumption.
Qed.

(** X22. On a sequencer without events, [next()], [prev()] and [event()]
    dereference an iterator outside the sequence, and so does [start()]
    when the timer is not active. *)
Theorem sequencer_without_events (s : sequencer) :
  Sequencer.events_ s = [] ->
  Sequencer.next s = None /\ Sequencer.prev s = None /\
  Sequencer.event s = None /\
  (t_active (Sequencer.event_timer_ s) = false -> Sequencer.start s = None).
Proof.
  intros He.
  assert (Hd : forall x : sequencer,
             Sequencer.events_ x = [] -> Sequencer.deref x = None).
  { intros x Hx. unfold Sequencer.deref. rewrite Hx.
    destruct (0 <=? Sequencer.current_ x); reflexivity. }
  repeat apply conj.
  - unfold Sequencer.next, Sequencer.bind, Sequencer.modify, Sequencer.get,
      Sequencer.ret.
    destruct (_ =? _); cbv beta iota; rewrite Hd by (cbn; exact He);
      reflexivity.
  - unfold Sequencer.prev, Sequencer.bind, Sequencer.modify, Sequencer.get,
      Sequencer.ret.
    destruct (_ =? _); cbv beta iota; rewrite Hd by (cbn; exact He);
      reflexivity.
  - apply Hd. exact He.
  - intros Hact.
    assert (Hia : Sequencer.is_active s = false).
    { unfold Sequencer.is_active, Sequencer.status. rewrite Hact.
      destruct (Sequencer.done_ s); reflexivity. }
    unfold Sequencer.start, Sequencer.bind at 1, Sequencer.get at 1.
    rewrite Hia.
    unfold Sequencer.bind at 1, Sequencer.rewind, Sequencer.bind at 1,
      Sequencer.modify.
    unfold Sequencer.bind at 1, Sequencer.begin, Sequencer.bind at 1.
    rewrite Hd by (cbn; exact He). reflexivity.
Qed.

(** X23. [reset()] on a sequencer whose timer is not active rewinds to
    the first event and marks the timer with the interval 0, performing no
    action; if the timer then reports that interval and is still not
    active, a following [resume()] does what [start()] does: it begins the
    first event and starts the timer. *)
Theorem sequencer_reset_then_resume (s : sequencer) (ev : Event) :
  Sequencer.events_ s !! 0%nat = Some ev ->
  t_active (Sequencer.event_timer_ s) = false ->
  t_active (t_set_interval 0 (Sequencer.event_timer_ s)) = false ->
  t_interval (t_set_interval 0 (Sequencer.event_timer_ s)) = 0 ->
  let s1 :=
    Sequencer.Sequencer_ (Sequencer.events_ s) 0 (Sequencer.callback_ s)
      (Sequencer.wrap_ s) false (Sequencer.exec_ s)
      (t_set_interval 0 (Sequencer.event_timer_ s)) in
  Sequencer.reset s = Some (tt, s1, []) /\
  Sequencer.resume s1 = Sequencer.start s1 /\
  Sequencer.resume s1
  = Some (tt,
          Sequencer.Sequencer_ (Sequencer.events_ s) 0
            (Sequencer.callback_ s) (Sequencer.wrap_ s) false
            (Sequencer.exec_ s)
            (t_start (t_set_interval (Sequencer.duration_ ev)
                        (t_set_interval 0 (Sequencer.event_timer_ s)))),
          Sequencer.command_actions ev
            ++ Sequencer.callback_actions (Sequencer.callback_ s) ev
                                          Sequencer.Begin).
Proof.
  intros Hev Hact Hact0 Hint s1.
  assert (Hres : Sequencer.resume s1 = Sequencer.start s1).
  { unfold Sequencer.resume, Sequencer.bind at 1, Sequencer.get at 1,
      Sequencer.is_idle, Sequencer.status. subst s1.
    cbn [Sequencer.event_timer_ Sequencer.done_].
    rewrite Hact0, Hint. change (0 =? 0) with true. cbv iota.
    destruct (Sequencer.start _) as [[[[] s2] t2]|]; reflexivity. }
  split; [|split; [exact Hres|]].
  - unfold Sequencer.reset, Sequencer.bind at 1, Sequencer.rewind,
      Sequencer.bind at 1, Sequencer.modify.
    unfold Sequencer.bind, Sequencer.get, Sequencer.is_active,
      Sequencer.status, Sequencer.on_timer, Sequencer.modify.
    cbn. rewrite Hact. reflexivity.
  - rewrite Hres. apply (seq_start_inactive s1 ev); subst s1; cbn; assumption.
Qed.
End SequencerRuns.

Lemma sequencer_index_counts_from_one_witness :
  0 <= Sequencer.index Sample.two_event_sequencer <= 255 /\
  Sequencer.index Sample.two_event_sequencer = 1.
Proof.
  assert (Hs : Sequencer.on_event Sample.two_event_sequencer)
    by (split; vm_compute; [intros H0; discriminate H0 | reflexivity]).
  pose proof (sequencer_index_counts_from_one Sample.two_event_sequencer Hs)
    as (Hr & Hsmall & _).
  split; [exact Hr|].
  apply Hsmall. vm_compute. intros H0. discriminate H0.
Defined.

Lemma sequencer_tick_moves_on_witness :
  exists ev ev',
    Sequencer.events_ Sample.expired_on_first !! 0%nat = Some ev /\
    Sequencer.events_ Sample.expired_on_first !! 1%nat = Some ev' /\
    Sequencer.tick Sample.expired_on_first
    = Some (tt,
            Sequencer.with_timer
              (Stopwatch true (Sequencer.duration_ ev') 12)
              (Sequencer.with_current 1 Sample.expired_on_first),
            [Sequencer.Notify 7%nat ev Sequencer.End]
              ++ Sequencer.command_actions ev'
              ++ [Sequencer.Notify 7%nat ev' Sequencer.Begin]).
Proof.
  assert (Hs : Sequencer.on_event Sample.expired_on_first)
    by (split; vm_compute; [intros H0; discriminate H0 | reflexivity]).
  assert (Hgo : Sequencer.current_ Sample.expired_on_first + 1
                < Sequencer.size Sample.expired_on_first
                \/ Sequencer.wrap_ Sample.expired_on_first = true)
    by (left; vm_compute; reflexivity).
  assert (He : t_expired (Sequencer.event_timer_ Sample.expired_on_first)
               = true) by reflexivity.
  assert (Ha : t_active (Sequencer.event_timer_ Sample.expired_on_first)
               = true) by reflexivity.
  destruct (sequencer_tick_moves_on Sample.expired_on_first Hs He Ha Hgo)
    as (ev & ev' & E1 & E2 & E3).
  exists ev, ev'. split; [exact E1|]. split; [exact E2 | exact E3].
Defined.

Lemma sequencer_tick_finishes_witness :
  exists ev,
    Sequencer.events_ Sample.expired_on_last !! 1%nat = Some ev /\
    Sequencer.tick Sample.expired_on_last
    = Some (tt,
            Sequencer.with_done true
              (Sequencer.with_timer (Stopwatch false 20 20)
                 Sample.expired_on_last),
            [Sequencer.Notify 7%nat ev Sequencer.End]) /\
    Sequencer.status
      (Sequencer.with_done true
         (Sequencer.with_timer (Stopwatch false 20 20)
            Sample.expired_on_last))
    = Sequencer.Done.
Proof.
  assert (Hs : Sequencer.on_event Sample.expired_on_last)
    by (split; vm_compute; [intros H0; discriminate H0 | reflexivity]).
  assert (He : t_expired (Sequencer.event_timer_ Sample.expired_on_last)
               = true) by reflexivity.
  assert (Hl : Sequencer.current_ Sample.expired_on_last + 1
               = Sequencer.size Sample.expired_on_last) by reflexivity.
  assert (Hw : Sequencer.wrap_ Sample.expired_on_last = false)
    by reflexivity.
  assert (Ht : t_active (t_stop (Sequencer.event_timer_
                                   Sample.expired_on_last)) = false)
    by reflexivity.
  destruct (sequencer_tick_finishes Sample.expired_on_last Hs He Hl Hw Ht)
    as (ev & E1 & E2 & E3).
  exists ev. split; [exact E1|]. split; [exact E2 | exact E3].
Defined.

Lemma sequencer_start_begins_first_witness :
  exists ev,
    Sequencer.events_ Sample.two_event_sequencer !! 0%nat = Some ev /\
    Sequencer.start Sample.two_event_sequencer
    = Some (tt,
            Sequencer.Sequencer_ Sample.two_events 0 (Some 7%nat) false false
              false (Stopwatch true 10 0),
            [Sequencer.Execute 1%nat;
             Sequencer.Notify 7%nat ev Sequencer.Begin]).
Proof.
  assert (Hev : Sequencer.events_ Sample.two_event_sequencer !! 0%nat
                = Some Sample.first_event) by reflexivity.
  assert (Hact : t_active (Sequencer.event_timer_ Sample.two_event_sequencer)
                 = false) by reflexivity.
  pose proof (proj2 (sequencer_start_begins_first
                       Sample.two_event_sequencer _ Hev) Hact) as Hstart.
  eexists. split; [exact Hev | exact Hstart].
Defined.

Lemma sequencer_without_events_witness :
  Sequencer.next Sample.no_events = None /\
  Sequencer.prev Sample.no_events = None /\
  Sequencer.event Sample.no_events = None /\
  (t_active (Sequencer.event_timer_ Sample.no_events) = false ->
   Sequencer.start Sample.no_events = None).
Proof. apply (sequencer_without_events Sample.no_events). reflexivity. Defined.

Lemma sequencer_reset_then_resume_witness :
  let s := Sequencer.with_current 1 Sample.two_event_sequencer in
  let s1 :=
    Sequencer.Sequencer_ Sample.two_events 0 (Some 7%nat) false false false
      (Stopwatch false 0 0) in
  Sequencer.reset s = Some (tt, s1, []) /\
  Sequencer.resume s1 = Sequencer.start s1.
Proof.
  intros s s1.
  pose proof (sequencer_reset_then_resume s _ eq_refl eq_refl eq_refl eq_refl)
    as H.
  cbn zeta in H. destruct H as (Hr & Hs & _).
  split; [exact Hr | exact Hs].
Defined.
